(** * UnityIssue1154TestApp: the command-line test app of [main.cc]

    A shallow embedding of [src/main.cc] (the fixed-payload program) and the
    properties its specification states about it.

    - the argument parser [ParseOperations] is a pure function from [argv]
      to either the [ArgParseException] it throws or the vector it returns;
    - [FirestoreErrorNameFromErrorCode] is a pure function on [int];
    - [AwaitCompletion], [DoRead], [DoWrite] and [main] run against the
      Firebase SDK, which is not part of the repository: the SDK is an
      interface ([Sdk]) whose operations thread an abstract state, and the
      program is written in a small monad that records what it prints and
      which requests it issues;
    - [AwaitableFutureCompletion], the wait on a condition variable, is a
      transition system over the interleavings of the waiting thread and
      the completion callback ([Adapter]);
    - [ParseArguments], the parser of the flag-configurable version of the
      program, stands next to [ParseOperations] ([Flags]). *)

From Stdlib Require Import ZArith String Ascii DecimalString.
From Stdlib Require DecimalZ DecimalPos.
From stdpp Require Import base option list strings gmap fin_maps.

Local Open Scope string_scope.
Local Open Scope list_scope.
Local Open Scope Z_scope.

(** ** Strings *)

(** The double-quote character, for the two messages that quote the
    accepted words. *)
Definition dquote : string := String (ascii_of_nat 34) EmptyString.

(** [std::to_string(int)]: the decimal rendering, with a leading minus sign
    for negative values. *)
Definition to_string (n : Z) : string := NilZero.string_of_int (Z.to_int n).

(** ** [enum class Operation]

    A scoped enumeration over [int]: [kRead] is 0 and [kWrite] is 1.  A value
    of the type is an [int], which is what the [default:] label of the
    dispatch in [main] is there for. *)
Definition Operation : Type := Z.
Definition kRead : Operation := 0.
Definition kWrite : Operation := 1.

(** ** [ArgParseException] and [ParseOperations] *)

(** An [ArgParseException] carries its [what()] text. *)
Record ArgParseException : Type := { what : string }.

(** The result of a call that either throws or returns. *)
Inductive Outcome (E A : Type) : Type :=
| Throw (e : E)
| Return (a : A).
Arguments Throw {E A} e.
Arguments Return {E A} a.

Definition invalid_argument (operation_name : string) : ArgParseException :=
  {| what := "invalid argument: " +:+ operation_name
             +:+ " (must be either " +:+ dquote +:+ "read" +:+ dquote
             +:+ " or " +:+ dquote +:+ "write" +:+ dquote +:+ ")" |}.

Definition no_arguments : ArgParseException :=
  {| what := "No arguments specified; one or more of "
             +:+ dquote +:+ "read" +:+ dquote +:+ " or "
             +:+ dquote +:+ "write" +:+ dquote +:+ " is required" |}.

(** The body of [for (int i=1; i<argc; i++)]: [args] is what is left of
    [argv] from index [i] on, [operations] the vector built so far. *)
Fixpoint ParseOperations_loop (args : list string) (operations : list Operation)
  : Outcome ArgParseException (list Operation) :=
  match args with
  | [] => Return operations
  | operation_name :: args' =>
      if String.eqb operation_name "read" then
        ParseOperations_loop args' (operations ++ [kRead])
      else if String.eqb operation_name "write" then
        ParseOperations_loop args' (operations ++ [kWrite])
      else
        Throw (invalid_argument operation_name)
  end.

(** [ParseOperations(argc, argv)], with [argv] the list of its [argc]
    strings: [argv[0]] is the program name and is skipped. *)
Definition ParseOperations (argv : list string)
  : Outcome ArgParseException (list Operation) :=
  match ParseOperations_loop (drop 1 argv) [] with
  | Throw e => Throw e
  | Return operations =>
      if Nat.eqb (length operations) 0 then Throw no_arguments
      else Return operations
  end.

(** The two words the parser accepts, and the operation each stands for. *)
Definition is_operation_name (t : string) : bool :=
  String.eqb t "read" || String.eqb t "write".

Definition Operation_of_name (t : string) : Operation :=
  if String.eqb t "read" then kRead else kWrite.

(** ** The Firebase SDK, as the program sees it

    [firebase/app.h] and [firebase/firestore.h] are not part of the
    repository.  What [main.cc] uses of them is collected in the interface
    [Sdk] below; the program is verified against every implementation of it. *)

(** The enumerators of [firebase::firestore::Error] that [main.cc] names. *)
Inductive Error : Type :=
| kErrorOk | kErrorCancelled | kErrorUnknown | kErrorInvalidArgument
| kErrorDeadlineExceeded | kErrorNotFound | kErrorAlreadyExists
| kErrorPermissionDenied | kErrorResourceExhausted | kErrorFailedPrecondition
| kErrorAborted | kErrorOutOfRange | kErrorUnimplemented | kErrorInternal
| kErrorUnavailable | kErrorDataLoss | kErrorUnauthenticated.

(** The name the [case] label of an enumerator returns. *)
Definition Error_name (e : Error) : string :=
  match e with
  | kErrorOk => "kErrorOk"
  | kErrorCancelled => "kErrorCancelled"
  | kErrorUnknown => "kErrorUnknown"
  | kErrorInvalidArgument => "kErrorInvalidArgument"
  | kErrorDeadlineExceeded => "kErrorDeadlineExceeded"
  | kErrorNotFound => "kErrorNotFound"
  | kErrorAlreadyExists => "kErrorAlreadyExists"
  | kErrorPermissionDenied => "kErrorPermissionDenied"
  | kErrorResourceExhausted => "kErrorResourceExhausted"
  | kErrorFailedPrecondition => "kErrorFailedPrecondition"
  | kErrorAborted => "kErrorAborted"
  | kErrorOutOfRange => "kErrorOutOfRange"
  | kErrorUnimplemented => "kErrorUnimplemented"
  | kErrorInternal => "kErrorInternal"
  | kErrorUnavailable => "kErrorUnavailable"
  | kErrorDataLoss => "kErrorDataLoss"
  | kErrorUnauthenticated => "kErrorUnauthenticated"
  end.

(** [firebase::firestore::Source]. *)
Inductive Source : Type := kDefault | kServer | kCache.

(** [firebase::FutureStatus]. *)
Inductive FutureStatus : Type :=
| kFutureStatusComplete | kFutureStatusPending | kFutureStatusInvalid.

(** What the program reads off a [FutureBase]: [status] is the status the
    handle settles in ([kFutureStatusPending] when it never leaves it), and
    [error], [error_message] are what the accessors return once it has. *)
Record FutureBase : Type :=
  { status : FutureStatus; error : Z; error_message : string }.

(** A [Future<DocumentSnapshot>]: [GetData] is the value of
    [future.result()->GetData(ServerTimestampBehavior::kDefault)], a
    [std::unordered_map], taken as the sequence of its entries from
    [begin()] to [end()].  That order is the container's (it comes from
    hashing and from the history of insertions, not from the keys), and
    the range-for of [DoRead] shows it; [size()] is the length of the
    sequence.  The keys of a map are distinct, which nothing below relies
    on.  The SDK keeps a result object for every handle that has completed,
    with an error or without; a null [result()] is outside the model. *)
Record FutureSnapshot (V : Type) : Type :=
  { base : FutureBase; GetData : list (string * V) }.
Arguments base {V} _.
Arguments GetData {V} _.

Class Sdk : Type :=
  { (** [firebase::firestore::FieldValue] and [FieldValue::Integer] *)
    FieldValue : Type;
    Integer : Z -> FieldValue;
    (** the integer value of each enumerator of [Error] *)
    Error_value : Error -> Z;
    (** the state of everything behind the SDK: configuration, network,
        the backend's store *)
    Remote : Type;
    (** [App::Create(AppOptions())]: [true] when the pointer is not null *)
    App_Create : Remote -> bool * Remote;
    (** [Firestore::GetInstance(app, nullptr)]: [true] when not null *)
    Firestore_GetInstance : Remote -> bool * Remote;
    (** [doc.Get(source)], by the document's path *)
    DocumentReference_Get : string -> Source -> Remote -> FutureSnapshot FieldValue * Remote;
    (** [doc.Set(map)], by the document's path *)
    DocumentReference_Set : string -> gmap string FieldValue -> Remote -> FutureBase * Remote }.

(** [firebase::firestore::DocumentReference], as far as the program looks
    into it: [firestore->Document(p).path()] is [p]. *)
Record DocumentReference : Type := Document { path : string }.

Section Program.
Context {sdk : Sdk}.

(** [MapFieldValue] is [std::unordered_map<std::string, FieldValue>].  The
    map [DoWrite] builds is handed to the SDK and never walked by the
    program, so it is kept as a finite map. *)
Abbreviation MapFieldValue := (gmap string FieldValue).

(** *** [FirestoreErrorNameFromErrorCode] *)

Definition FirestoreErrorNameFromErrorCode (error : Z) : string :=
  if error =? Error_value kErrorOk then "kErrorOk"
  else if error =? Error_value kErrorCancelled then "kErrorCancelled"
  else if error =? Error_value kErrorUnknown then "kErrorUnknown"
  else if error =? Error_value kErrorInvalidArgument then "kErrorInvalidArgument"
  else if error =? Error_value kErrorDeadlineExceeded then "kErrorDeadlineExceeded"
  else if error =? Error_value kErrorNotFound then "kErrorNotFound"
  else if error =? Error_value kErrorAlreadyExists then "kErrorAlreadyExists"
  else if error =? Error_value kErrorPermissionDenied then "kErrorPermissionDenied"
  else if error =? Error_value kErrorResourceExhausted then "kErrorResourceExhausted"
  else if error =? Error_value kErrorFailedPrecondition then "kErrorFailedPrecondition"
  else if error =? Error_value kErrorAborted then "kErrorAborted"
  else if error =? Error_value kErrorOutOfRange then "kErrorOutOfRange"
  else if error =? Error_value kErrorUnimplemented then "kErrorUnimplemented"
  else if error =? Error_value kErrorInternal then "kErrorInternal"
  else if error =? Error_value kErrorUnavailable then "kErrorUnavailable"
  else if error =? Error_value kErrorDataLoss then "kErrorDataLoss"
  else if error =? Error_value kErrorUnauthenticated then "kErrorUnauthenticated"
  else to_string error.

(** *** What the program does to the outside

    [Log] streams each of its arguments to [std::cout] and ends the line.
    A line is kept as the list of the arguments; how an [int], a [size_t]
    or a [FieldValue] is rendered is the stream's business. *)
Inductive Printable : Type :=
| PText (s : string)
| PInt (n : Z)
| PSize (n : nat)
| PField (v : FieldValue).

Inductive Request : Type :=
| ReqGet (path : string) (source : Source)
| ReqSet (path : string) (map : MapFieldValue).

Inductive Event : Type :=
| Logged (line : list Printable)   (* one call of [Log] *)
| Issued (request : Request)       (* an asynchronous call handed to the SDK *)
| Awaited.                         (* [AwaitInvoked] returned *)

(** *** The program monad

    A computation starts from a state of the collaborator and yields its
    value, the events it produced in order, and the state it leaves.  The
    value is [None] when the computation never gets there: it is blocked in
    [AwaitInvoked] on a handle that stays pending. *)
Record Run (A : Type) : Type :=
  { value : option A; printed : list Event; remote : Remote }.
#[local] Arguments value {A} _.
#[local] Arguments printed {A} _.
#[local] Arguments remote {A} _.

Definition Prog (A : Type) : Type := Remote -> Run A.

Definition ret {A} (a : A) : Prog A :=
  fun r => {| value := Some a; printed := []; remote := r |}.

Definition bind {A B} (m : Prog A) (k : A -> Prog B) : Prog B :=
  fun r =>
    let x := m r in
    match value x with
    | None => {| value := None; printed := printed x; remote := remote x |}
    | Some a =>
        let y := k a (remote x) in
        {| value := value y; printed := printed x ++ printed y; remote := remote y |}
    end.

Definition emit (e : Event) : Prog unit :=
  fun r => {| value := Some tt; printed := [e]; remote := r |}.

Definition call {A} (f : Remote -> A * Remote) : Prog A :=
  fun r => {| value := Some (f r).1; printed := []; remote := (f r).2 |}.

Definition blocked {A} : Prog A :=
  fun r => {| value := None; printed := []; remote := r |}.

Notation "'do' x <- m ; k" := (bind m (fun x => k))
  (at level 10, x name, m at level 100, k at level 200).

Definition Log (line : list Printable) : Prog unit := emit (Logged line).

(** *** [AwaitableFutureCompletion::AwaitInvoked]

    [condition_.wait(lock, pred)] returns once [pred], which is
    [future_.status() != kFutureStatusPending], holds. *)
Definition AwaitInvoked (future_ : FutureBase) : Prog unit :=
  match status future_ with
  | kFutureStatusPending => blocked
  | _ => emit Awaited
  end.

(** *** [AwaitCompletion]

    The constructor of [AwaitableFutureCompletion] registers [OnCompletion]
    with the handle; what the two do among threads is the subject of
    [Adapter] below.  Here the wait is taken by its outcome. *)
Definition AwaitCompletion (future : FutureBase) (name : string) : Prog unit :=
  do _ <- Log [PText name; PText " start"];
  do _ <- AwaitInvoked future;
  if negb (error future =? Error_value kErrorOk) then
    Log [PText name; PText " FAILED: ";
         PText (FirestoreErrorNameFromErrorCode (error future)); PText " ";
         PText (error_message future)]
  else
    Log [PText name; PText " done"].

(** *** [DoRead] *)

(** The range-for over [data]: [entry_index] is the counter before the
    entry is printed, [++entry_index] what is printed.  (A document has far
    fewer than [INT_MAX] fields, so the counter is kept in [Z].) *)
Fixpoint DoRead_entries (entries : list (string * FieldValue)) (entry_index : Z)
  : Prog unit :=
  match entries with
  | [] => ret tt
  | entry :: entries' =>
      do _ <- Log [PText "Entry #"; PInt (entry_index + 1); PText ": ";
                   PText entry.1; PText "="; PField entry.2];
      DoRead_entries entries' (entry_index + 1)
  end.

Definition DoRead (doc : DocumentReference) : Prog unit :=
  do _ <- Log [PText "*** DoRead() doc="; PText (path doc)];
  do _ <- emit (Issued (ReqGet (path doc) kServer));
  do future <- call (DocumentReference_Get (path doc) kServer);
  do _ <- AwaitCompletion (base future) "DocumentReference.Get()";
  let data := GetData future in
  do _ <- Log [PText "Document # key/value pairs: "; PSize (length data)];
  DoRead_entries data 0.

(** *** [DoWrite] *)
Definition DoWrite (doc : DocumentReference) : Prog unit :=
  do _ <- Log [PText "*** DoWrite() doc="; PText (path doc)];
  let map : MapFieldValue := <["meaning" := Integer 42]> ∅ in
  do _ <- emit (Issued (ReqSet (path doc) map));
  do future <- call (DocumentReference_Set (path doc) map);
  AwaitCompletion future "DocumentReference.Set()".

(** *** [main] *)

(** The range-for over [operations].  The value is [Some code] when the
    body executed [return code], and [None] when the loop ran off its end. *)
Fixpoint main_loop (doc : DocumentReference) (operations : list Operation)
  : Prog (option Z) :=
  match operations with
  | [] => ret None
  | operation :: operations' =>
      if operation =? kRead then
        do _ <- DoRead doc; main_loop doc operations'
      else if operation =? kWrite then
        do _ <- DoWrite doc; main_loop doc operations'
      else
        do _ <- Log [PText "INTERNAL ERROR: unknown value for operation: ";
                     PInt operation];
        ret (Some 1)
  end.

Definition main (argv : list string) : Prog Z :=
  match ParseOperations argv with
  | Throw e =>
      do _ <- Log [PText "ERROR: Invalid command-line arguments: "; PText (what e)];
      ret 2
  | Return operations =>
      do _ <- Log [PText "Creating firebase::App"];
      do app <- call App_Create;
      if negb app then
        do _ <- Log [PText "ERROR: Creating firebase::App FAILED!"];
        ret 1
      else
        do _ <- Log [PText "Creating firebase::firestore::Firestore"];
        do firestore <- call Firestore_GetInstance;
        if negb firestore then
          do _ <- Log [PText "ERROR: Creating firebase::firestore::Firestore FAILED!"];
          ret 1
        else
          let doc := Document "UnityIssue1154TestApp/TestDoc" in
          do _ <- Log [PText "Performing "; PSize (length operations);
                       PText " operations on document: "; PText (path doc)];
          do returned <- main_loop doc operations;
          match returned with
          | Some code => ret code
          | None => ret 0
          end
  end.

(** *** Reading a run *)

(** The requests of a trace, in the order they were issued. *)
Definition issued (t : list Event) : list Request :=
  omap (fun e => match e with Issued q => Some q | _ => None end) t.

(** The lines of a trace, in the order they were printed. *)
Definition lines (t : list Event) : list (list Printable) :=
  omap (fun e => match e with Logged l => Some l | _ => None end) t.

(** How many waits returned. *)
Definition awaited (t : list Event) : nat :=
  length (omap (fun e => match e with Awaited => Some tt | _ => None end) t).

(** The operation a request carries out. *)
Definition Request_operation (q : Request) : Operation :=
  match q with
  | ReqGet _ _ => kRead
  | ReqSet _ _ => kWrite
  end.

(** One handle at a time: walking a trace with [outstanding] telling
    whether a request has been issued and not yet waited for, a request is
    issued only when none is outstanding and a wait returns only for the
    outstanding one.  The result is the flag at the end of the trace, or
    [None] when the discipline is broken. *)
Fixpoint one_at_a_time (outstanding : bool) (t : list Event) : option bool :=
  match t with
  | [] => Some outstanding
  | Logged _ :: t' => one_at_a_time outstanding t'
  | Issued _ :: t' => if outstanding then None else one_at_a_time true t'
  | Awaited :: t' => if outstanding then one_at_a_time false t' else None
  end.

(** Every handle the collaborator hands out leaves [kFutureStatusPending]. *)
Definition always_settles : Prop :=
  (forall path source r,
     status (base (DocumentReference_Get path source r).1) <> kFutureStatusPending) /\
  (forall path map r,
     status (DocumentReference_Set path map r).1 <> kFutureStatusPending).

(** The line [AwaitCompletion] ends with. *)
Definition completion_line (name : string) (future : FutureBase) : list Printable :=
  if error future =? Error_value kErrorOk then
    [PText name; PText " done"]
  else
    [PText name; PText " FAILED: ";
     PText (FirestoreErrorNameFromErrorCode (error future)); PText " ";
     PText (error_message future)].

(** The line of the entry at position [k] (from 0) of a record. *)
Definition entry_line (k : nat) (entry : string * FieldValue) : list Printable :=
  [PText "Entry #"; PInt (Z.of_nat k + 1); PText ": ";
   PText entry.1; PText "="; PField entry.2].

(** What [DoRead] prints after the wait: the count, then the entries. *)
Definition record_lines (data : list (string * FieldValue)) : list (list Printable) :=
  [PText "Document # key/value pairs: "; PSize (length data)]
  :: imap entry_line data.

Definition performing_line (operations : list Operation) : list Printable :=
  [PText "Performing "; PSize (length operations);
   PText " operations on document: "; PText "UnityIssue1154TestApp/TestDoc"].

Definition internal_error_line (operation : Operation) : list Printable :=
  [PText "INTERNAL ERROR: unknown value for operation: "; PInt operation].

(** The request an operation of the vector stands for. *)
Definition request_of (doc : DocumentReference) (operation : Operation) : Request :=
  if operation =? kRead then ReqGet (path doc) kServer
  else ReqSet (path doc) {["meaning" := Integer 42]}.

(** A line is the one the [default:] label prints. *)
Definition is_internal_error (line : list Printable) : bool :=
  match line with
  | PText s :: _ => String.eqb s "INTERNAL ERROR: unknown value for operation: "
  | _ => false
  end.

(** The shape of what one operation leaves in the trace: it issues the one
    request [q]; either the wait returns, and the handle is no longer
    outstanding, or the run is blocked with the handle outstanding. *)
Definition one_operation (q : Request) (x : Run unit) : Prop :=
  issued (printed x) = [q] /\
  Forall (fun l => is_internal_error l = false) (lines (printed x)) /\
  ((value x = Some tt /\ awaited (printed x) = 1%nat /\
    forall t, one_at_a_time false (printed x ++ t) = one_at_a_time false t)
   \/
   (value x = None /\ awaited (printed x) = 0%nat /\
    one_at_a_time false (printed x) = Some true)).

End Program.

Arguments Run {sdk} A.
Arguments value {sdk A} _.
Arguments printed {sdk A} _.
Arguments remote {sdk A} _.

(** ** [AwaitableFutureCompletion] among threads

    [AwaitInvoked] runs on the thread of [main]; [OnCompletion] runs on
    whichever thread completes the handle (or, for a handle that is already
    complete when the constructor registers the callback, before
    [AwaitInvoked] is entered).  They meet at the static [mutex_] and
    [condition_].  The model is the interleaving of the two, one step per
    operation on the mutex, the condition variable or the handle:

    - [AwaitInvoked]: lock [mutex_]; [condition_.wait(lock, pred)], which
      is [while (!pred()) wait(lock)] with [wait] releasing the mutex and
      blocking in one step, and locking it again once woken (by a
      notification, or spuriously); unlock at the end of the scope;
    - the handle: it leaves [kFutureStatusPending] once, and then its
      completion callback is called, once;
    - [OnCompletion]: lock [mutex_]; [condition_.notify_all()]; unlock. *)
Module Adapter.

(** The two threads that meet at [mutex_]. *)
Inductive Thread : Type := Main | Callback.

(** Where the thread inside [AwaitInvoked] stands. *)
Inductive Waiter : Type :=
| Entering     (* before [std::unique_lock<std::mutex> lock(mutex_)] *)
| Testing      (* holds [mutex_]; about to evaluate the predicate of [wait] *)
| Blocked      (* inside [wait]: [mutex_] released, waiting on [condition_] *)
| Woken        (* notified, or woken spuriously; about to lock [mutex_] again *)
| Leaving      (* the predicate held; about to release [mutex_] *)
| Returned.    (* [AwaitInvoked] has returned *)

#[global] Instance Waiter_eq_dec : EqDecision Waiter.
Proof. solve_decision. Defined.

(** Where the completion of the handle stands. *)
Inductive Completion : Type :=
| NotCompleted (* the handle is pending *)
| Calling      (* the handle has left pending; [OnCompletion] is about to lock *)
| Notifying    (* [OnCompletion] holds [mutex_]; about to [notify_all] *)
| Unlocking    (* [OnCompletion] about to release [mutex_] *)
| Fired.       (* [OnCompletion] has returned *)

Record State : Type :=
  { future_status : FutureStatus;
    mutex_ : option Thread;
    waiter : Waiter;
    completion : Completion }.

Inductive Action : Type :=
| await_lock | await_test | await_wake_spurious | await_relock | await_unlock
| future_complete | callback_lock | callback_notify_all | callback_unlock.

Definition pending (st : FutureStatus) : bool :=
  match st with kFutureStatusPending => true | _ => false end.

Definition free (m : option Thread) : bool :=
  match m with None => true | Some _ => false end.

Definition step (a : Action) (s : State) : option State :=
  match a, waiter s, completion s with
  | await_lock, Entering, _ =>
      if free (mutex_ s) then
        Some {| future_status := future_status s; mutex_ := Some Main;
                waiter := Testing; completion := completion s |}
      else None
  | await_test, Testing, _ =>
      if pending (future_status s) then
        Some {| future_status := future_status s; mutex_ := None;
                waiter := Blocked; completion := completion s |}
      else
        Some {| future_status := future_status s; mutex_ := mutex_ s;
                waiter := Leaving; completion := completion s |}
  | await_wake_spurious, Blocked, _ =>
      Some {| future_status := future_status s; mutex_ := mutex_ s;
              waiter := Woken; completion := completion s |}
  | await_relock, Woken, _ =>
      if free (mutex_ s) then
        Some {| future_status := future_status s; mutex_ := Some Main;
                waiter := Testing; completion := completion s |}
      else None
  | await_unlock, Leaving, _ =>
      Some {| future_status := future_status s; mutex_ := None;
              waiter := Returned; completion := completion s |}
  | future_complete, _, NotCompleted =>
      Some {| future_status := kFutureStatusComplete; mutex_ := mutex_ s;
              waiter := waiter s; completion := Calling |}
  | callback_lock, _, Calling =>
      if free (mutex_ s) then
        Some {| future_status := future_status s; mutex_ := Some Callback;
                waiter := waiter s; completion := Notifying |}
      else None
  | callback_notify_all, w, Notifying =>
      Some {| future_status := future_status s; mutex_ := mutex_ s;
              waiter := match w with Blocked => Woken | _ => w end;
              completion := Unlocking |}
  | callback_unlock, _, Unlocking =>
      Some {| future_status := future_status s; mutex_ := None;
              waiter := waiter s; completion := Fired |}
  | _, _, _ => None
  end.

Definition init : State :=
  {| future_status := kFutureStatusPending; mutex_ := None;
     waiter := Entering; completion := NotCompleted |}.

Fixpoint run (actions : list Action) (s : State) : option State :=
  match actions with
  | [] => Some s
  | a :: actions' =>
      match step a s with
      | Some s' => run actions' s'
      | None => None
      end
  end.

Inductive reachable : State -> Prop :=
| reachable_init : reachable init
| reachable_step a s s' : reachable s -> step a s = Some s' -> reachable s'.

(** The callback has fired, start to end, before [AwaitInvoked] is entered. *)
Definition fired_first : State :=
  {| future_status := kFutureStatusComplete; mutex_ := None;
     waiter := Entering; completion := Fired |}.

Definition waiter_rank (w : Waiter) : nat :=
  match w with
  | Blocked => 4 | Woken => 3 | Entering => 3 | Testing => 2 | Leaving => 1
  | Returned => 0
  end.

Definition completion_rank (c : Completion) : nat :=
  match c with
  | NotCompleted => 4 | Calling => 3 | Notifying => 2 | Unlocking => 1 | Fired => 0
  end.

Definition rank (s : State) : nat :=
  waiter_rank (waiter s) + completion_rank (completion s).

(** What holds of every state the two threads can reach. *)
Definition invariant (s : State) : bool :=
  (* the handle is pending exactly until it is completed *)
  match completion s with
  | NotCompleted => pending (future_status s)
  | _ => negb (pending (future_status s))
  end &&
  (* who holds the mutex *)
  match mutex_ s with
  | None =>
      match waiter s with Testing | Leaving => false | _ => true end &&
      match completion s with Notifying | Unlocking => false | _ => true end
  | Some Main =>
      match waiter s with Testing | Leaving => true | _ => false end &&
      match completion s with Notifying | Unlocking => false | _ => true end
  | Some Callback =>
      match waiter s with Testing | Leaving => false | _ => true end &&
      match completion s with Notifying | Unlocking => true | _ => false end
  end &&
  (* a blocked waiter still has its notification coming *)
  match waiter s, completion s with
  | Blocked, (Unlocking | Fired) => false
  | _, _ => true
  end &&
  (* the wait is left only with the handle no longer pending *)
  match waiter s with
  | Leaving | Returned => negb (pending (future_status s))
  | _ => true
  end.

End Adapter.

(** ** The flag-configurable variant of the parser

    The repository holds a second version of [main.cc], whose parser is
    [ParseArguments]: it knows [--key] and [--value].  It is modelled here
    next to [ParseOperations] for comparison. *)
Module Flags.

Record ParsedArguments : Type :=
  { operations : list Operation;
    key : string;
    key_valid : bool;
    value : string;
    value_valid : bool }.

Definition expected_after (flag : string) : ArgParseException :=
  {| what := "Expected argument after " +:+ flag |}.

(** The body of the loop: [args] is what is left of [argv], [a] the
    [ParsedArguments] built so far, with the two flags of the loop. *)
Fixpoint ParseArguments_loop (args : list string) (a : ParsedArguments)
    (next_is_key next_is_value : bool)
  : Outcome ArgParseException (ParsedArguments * bool * bool) :=
  match args with
  | [] => Return (a, next_is_key, next_is_value)
  | arg :: args' =>
      if next_is_key then
        ParseArguments_loop args'
          {| operations := operations a; key := arg; key_valid := true;
             value := value a; value_valid := value_valid a |}
          false next_is_value
      else if next_is_value then
        ParseArguments_loop args'
          {| operations := operations a; key := key a; key_valid := key_valid a;
             value := arg; value_valid := true |}
          next_is_key false
      else if String.eqb arg "read" then
        ParseArguments_loop args'
          {| operations := operations a ++ [kRead]; key := key a;
             key_valid := key_valid a; value := value a;
             value_valid := value_valid a |}
          next_is_key next_is_value
      else if String.eqb arg "write" then
        ParseArguments_loop args'
          {| operations := operations a ++ [kWrite]; key := key a;
             key_valid := key_valid a; value := value a;
             value_valid := value_valid a |}
          next_is_key next_is_value
      else if String.eqb arg "--key" then
        ParseArguments_loop args' a true next_is_value
      else if String.eqb arg "--value" then
        ParseArguments_loop args' a next_is_key true
      else
        Throw (invalid_argument arg)
  end.

Definition ParseArguments (argv : list string)
  : Outcome ArgParseException ParsedArguments :=
  match ParseArguments_loop (drop 1 argv)
          {| operations := []; key := EmptyString; key_valid := false;
             value := EmptyString; value_valid := false |}
          false false with
  | Throw e => Throw e
  | Return (args, next_is_key, next_is_value) =>
      if next_is_key then Throw (expected_after "--key")
      else if next_is_value then Throw (expected_after "--value")
      else if Nat.eqb (length (operations args)) 0 then Throw no_arguments
      else Return args
  end.

(** What the dispatch of that version's [main] passes to [DoWrite]. *)
Definition write_key (args : ParsedArguments) : string :=
  if key_valid args then key args else "TestKey".

Definition write_value (args : ParsedArguments) : string :=
  if value_valid args then value args else "TestValue".

(** *** The rest of that version of the program

    [AwaitCompletion], [FirestoreErrorNameFromErrorCode] and the loop over
    the entries of a record are those of [main.cc].  [DoRead] differs in
    what it prints; [DoWrite] takes the key and the value, and writes the
    value as a string. *)

(** [FieldValue::String], which [main.cc] has no use for. *)
Class StringValues (sdk : Sdk) : Type :=
  { FieldValue_String : string -> FieldValue }.

Section FlagsProgram.
Context {sdk : Sdk} {strings : StringValues sdk}.

Notation "'do' x <- m ; k" := (bind m (fun x => k))
  (at level 10, x name, m at level 100, k at level 200).

Definition separator : string := "=======================================".

Definition DoRead (doc : DocumentReference) : Prog unit :=
  do _ <- Log [PText separator];
  do _ <- Log [PText "DoRead() doc="; PText (path doc)];
  do _ <- emit (Issued (ReqGet (path doc) kServer));
  do future <- call (DocumentReference_Get (path doc) kServer);
  do _ <- AwaitCompletion (base future) "DocumentReference.Get()";
  let data := GetData future in
  do _ <- Log [PText "Document num key/value pairs: "; PSize (length data)];
  DoRead_entries data 0.

Definition DoWrite (doc : DocumentReference) (key value : string) : Prog unit :=
  do _ <- Log [PText separator];
  do _ <- Log [PText "DoWrite() doc="; PText (path doc); PText " setting ";
               PText key; PText "="; PText value];
  let map : gmap string FieldValue := <[key := FieldValue_String value]> ∅ in
  do _ <- emit (Issued (ReqSet (path doc) map));
  do future <- call (DocumentReference_Set (path doc) map);
  AwaitCompletion future "DocumentReference.Set()".

(** The range-for over [args.operations]; the value is as for the loop of
    [main.cc]. *)
Fixpoint main_loop (args : ParsedArguments) (doc : DocumentReference)
    (operations : list Operation) : Prog (option Z) :=
  match operations with
  | [] => ret None
  | operation :: operations' =>
      if operation =? kRead then
        do _ <- DoRead doc; main_loop args doc operations'
      else if operation =? kWrite then
        let key := if key_valid args then key args else "TestKey" in
        let value := if value_valid args then value args else "TestValue" in
        do _ <- DoWrite doc key value; main_loop args doc operations'
      else
        do _ <- Log [PText "INTERNAL ERROR: unknown value for operation: ";
                     PInt operation];
        ret (Some 1)
  end.

Definition main (argv : list string) : Prog Z :=
  match ParseArguments argv with
  | Throw e =>
      do _ <- Log [PText "ERROR: Invalid command-line arguments: "; PText (what e)];
      ret 2
  | Return args =>
      do _ <- Log [PText "Creating firebase::App"];
      do app <- call App_Create;
      if negb app then
        do _ <- Log [PText "ERROR: Creating firebase::App FAILED!"];
        ret 1
      else
        do _ <- Log [PText "Creating firebase::firestore::Firestore"];
        do firestore <- call Firestore_GetInstance;
        if negb firestore then
          do _ <- Log [PText "ERROR: Creating firebase::firestore::Firestore FAILED!"];
          ret 1
        else
          let doc := Document "UnityIssue1154TestApp/TestDoc" in
          do _ <- Log [PText "Performing "; PSize (length (operations args));
                       PText " operations on document: "; PText (path doc)];
          do returned <- main_loop args doc (operations args);
          match returned with
          | Some code => ret code
          | None => ret 0
          end
  end.

End FlagsProgram.

End Flags.

(** ** A collaborator to run the program against

    The behaviour the test app was written to expose: the first request has
    to bring the connection up, which a write waits for and a read from the
    server does not.  Field values are integers; the error codes are the
    canonical status codes.  The document is kept as the sequence of
    entries a read hands out. *)
Module Issue1154.

Record Backend : Type :=
  { configured : bool;              (* [google-services.json] is in place *)
    connected : bool;
    document : list (string * Z) }.

Definition error_value (e : Error) : Z :=
  match e with
  | kErrorOk => 0 | kErrorCancelled => 1 | kErrorUnknown => 2
  | kErrorInvalidArgument => 3 | kErrorDeadlineExceeded => 4
  | kErrorNotFound => 5 | kErrorAlreadyExists => 6
  | kErrorPermissionDenied => 7 | kErrorResourceExhausted => 8
  | kErrorFailedPrecondition => 9 | kErrorAborted => 10
  | kErrorOutOfRange => 11 | kErrorUnimplemented => 12 | kErrorInternal => 13
  | kErrorUnavailable => 14 | kErrorDataLoss => 15 | kErrorUnauthenticated => 16
  end.

Definition ok : FutureBase :=
  {| status := kFutureStatusComplete; error := 0; error_message := "" |}.

Definition unavailable : FutureBase :=
  {| status := kFutureStatusComplete; error := 14;
     error_message := "Failed to get document from server." |}.

Definition get (path : string) (source : Source) (b : Backend)
  : FutureSnapshot Z * Backend :=
  (if connected b then {| base := ok; GetData := document b |}
   else {| base := unavailable; GetData := [] |},
   {| configured := configured b; connected := true; document := document b |}).

Definition set (path : string) (map : gmap string Z) (b : Backend)
  : FutureBase * Backend :=
  (ok, {| configured := configured b; connected := true;
          document := map_to_list map |}).

#[local] Instance sdk : Sdk :=
  {| FieldValue := Z;
     Integer := fun n => n;
     Error_value := error_value;
     Remote := Backend;
     App_Create := fun b => (configured b, b);
     Firestore_GetInstance := fun b => (true, b);
     DocumentReference_Get := get;
     DocumentReference_Set := set |}.

(** A fresh process with its configuration file, and one without. *)
Definition fresh : Backend :=
  {| configured := true; connected := false; document := [] |}.
Definition unconfigured : Backend :=
  {| configured := false; connected := false; document := [] |}.

(** A process that is connected, with the document as a write leaves it. *)
Definition written : Backend :=
  {| configured := true; connected := true; document := [("meaning", 42)] |}.

(** A process that is connected, with a document of three fields, which a
    read hands out in an order that is not the alphabetical one. *)
Definition three_fields : Backend :=
  {| configured := true; connected := true;
     document := [("c", 3); ("b", 2); ("a", 1)] |}.

End Issue1154.

(** A collaborator whose handles never leave [kFutureStatusPending]. *)
Module Stalled.

Definition pending : FutureBase :=
  {| status := kFutureStatusPending; error := 0; error_message := "" |}.

#[local] Instance sdk : Sdk :=
  {| FieldValue := Z;
     Integer := fun n => n;
     Error_value := Issue1154.error_value;
     Remote := unit;
     App_Create := fun r => (true, r);
     Firestore_GetInstance := fun r => (true, r);
     DocumentReference_Get := fun _ _ r => ({| base := pending; GetData := [] |}, r);
     DocumentReference_Set := fun _ _ r => (pending, r) |}.

End Stalled.

(** ** Vocabulary for the properties of the parsers *)

(** The word that stands for an enumerator on the command line. *)
Definition Operation_name (operation : Operation) : string :=
  if operation =? kRead then "read" else "write".

(** An argument list without its flags and their payloads, as
    [ParseArguments] takes them: a flag and the word after it go. *)
Fixpoint strip_flags (args : list string) : list string :=
  match args with
  | [] => []
  | arg :: args' =>
      if String.eqb arg "--key" || String.eqb arg "--value" then
        match args' with
        | [] => []
        | _ :: args'' => strip_flags args''
        end
      else arg :: strip_flags args'
  end.

(** What two parsed argument lists amount to, one after the other: the
    operations of both, and of each override the later one that is set. *)
Definition Flags_combine (x y : Flags.ParsedArguments) : Flags.ParsedArguments :=
  {| Flags.operations := Flags.operations x ++ Flags.operations y;
     Flags.key := if Flags.key_valid y then Flags.key y else Flags.key x;
     Flags.key_valid := Flags.key_valid y || Flags.key_valid x;
     Flags.value := if Flags.value_valid y then Flags.value y else Flags.value x;
     Flags.value_valid := Flags.value_valid y || Flags.value_valid x |}.

(** ** Vocabulary for the properties of the runner *)

Section RunVocabulary.
Context {sdk : Sdk}.

(** The state an operation of [main.cc] leaves the collaborator in: that
    of the one call it makes. *)
Definition after_operation (doc : DocumentReference) (r : Remote)
    (operation : Operation) : Remote :=
  if operation =? kRead then (DocumentReference_Get (path doc) kServer r).2
  else (DocumentReference_Set (path doc) {["meaning" := Integer 42]} r).2.

(** The handle that one call hands out. *)
Definition handle_of (doc : DocumentReference) (r : Remote)
    (operation : Operation) : FutureBase :=
  if operation =? kRead then base (DocumentReference_Get (path doc) kServer r).1
  else (DocumentReference_Set (path doc) {["meaning" := Integer 42]} r).1.

(** The handles the collaborator hands out for the operations of a vector,
    the call of each made in the state the calls before it have left. *)
Fixpoint handles (doc : DocumentReference) (r : Remote)
    (operations : list Operation) : list FutureBase :=
  match operations with
  | [] => []
  | operation :: operations' =>
      handle_of doc r operation
      :: handles doc (after_operation doc r operation) operations'
  end.

(** A handle that leaves [kFutureStatusPending], with an error or without. *)
Definition settled (future : FutureBase) : Prop :=
  status future <> kFutureStatusPending.

End RunVocabulary.

(** ** Vocabulary for the properties of the flag-configurable program *)

Section FlagsVocabulary.
Context {sdk : Sdk} {strings : Flags.StringValues sdk}.

(** The request an operation of that version stands for, given the parsed
    arguments. *)
Definition Flags_request_of (args : Flags.ParsedArguments) (doc : DocumentReference)
    (operation : Operation) : Request :=
  if operation =? kRead then ReqGet (path doc) kServer
  else ReqSet (path doc)
         {[Flags.write_key args := Flags.FieldValue_String (Flags.write_value args)]}.

End FlagsVocabulary.

(** ** A collaborator that stores what it is given

    Field values are integers or strings; every request succeeds, a write
    replaces the document and a read returns it. *)
Module Store.

Inductive Value : Type :=
| VInteger (n : Z)
| VString (s : string).

Record Backend : Type :=
  { configured : bool;              (* [google-services.json] is in place *)
    document : list (string * Value) }.

#[local] Instance sdk : Sdk :=
  {| FieldValue := Value;
     Integer := VInteger;
     Error_value := Issue1154.error_value;
     Remote := Backend;
     App_Create := fun b => (configured b, b);
     Firestore_GetInstance := fun b => (true, b);
     DocumentReference_Get :=
       fun _ _ b => ({| base := Issue1154.ok; GetData := document b |}, b);
     DocumentReference_Set :=
       fun _ map b =>
         (Issue1154.ok, {| configured := configured b;
                           document := map_to_list map |}) |}.

#[local] Instance strings : Flags.StringValues sdk :=
  {| Flags.FieldValue_String := VString |}.

Definition empty : Backend := {| configured := true; document := [] |}.
Definition unconfigured : Backend := {| configured := false; document := [] |}.

End Store.


(** * Properties *)

(** ** Strings *)

Lemma to_string_nonempty n : to_string n <> EmptyString.
Proof.
  unfold to_string. destruct (Z.to_int n) as [d|d]; simpl; [|done].
  destruct d; simpl; done.
Qed.

(** [to_string] is the decimal rendering: read back as a decimal number,
    the string gives the integer. *)
Lemma to_string_decimal n :
  NilZero.int_of_string (to_string n) = Some (Z.to_int n) /\
  Z.of_int (Z.to_int n) = n.
Proof.
  split; [ | apply DecimalZ.of_to].
  apply NilZero.isi; destruct n; simpl; try discriminate.
  all: intros [= H]; by apply DecimalPos.Unsigned.to_uint_nonnil in H.
Qed.

Example to_string_ex :
  to_string 0 = "0" /\ to_string 42 = "42" /\ to_string (-2147483648) = "-2147483648".
Proof. repeat split. Qed.

(** ** The argument parser *)

Lemma is_operation_name_true t :
  is_operation_name t = true <-> t = "read" \/ t = "write".
Proof.
  unfold is_operation_name. rewrite orb_true_iff, !String.eqb_eq. tauto.
Qed.

Lemma is_operation_name_false t :
  is_operation_name t = false <-> t <> "read" /\ t <> "write".
Proof.
  unfold is_operation_name. rewrite orb_false_iff, !String.eqb_neq. tauto.
Qed.

(** The loop in closed form: it throws at the first word that is neither
    [read] nor [write], and otherwise appends one operation per word. *)
Lemma ParseOperations_loop_spec args operations :
  ParseOperations_loop args operations =
  match List.find (fun t => negb (is_operation_name t)) args with
  | Some bad => Throw (invalid_argument bad)
  | None => Return (operations ++ (Operation_of_name <$> args))
  end.
Proof.
  revert operations.
  induction args as [|t args IH]; intros operations; simpl.
  - by rewrite app_nil_r.
  - unfold is_operation_name, Operation_of_name.
    destruct (String.eqb t "read") eqn:Hr; simpl.
    + rewrite IH. destruct (List.find _ args); [done|].
      by rewrite <- app_assoc.
    + destruct (String.eqb t "write") eqn:Hw; simpl; [|done].
      rewrite IH. destruct (List.find _ args); [done|].
      by rewrite <- app_assoc.
Qed.

Lemma find_offending_None tokens :
  Forall (fun t => t = "read" \/ t = "write") tokens ->
  List.find (fun t => negb (is_operation_name t)) tokens = None.
Proof.
  induction 1 as [|t tokens Ht _ IH]; simpl; [done|].
  apply is_operation_name_true in Ht. by rewrite Ht.
Qed.

(** The first offending word of a list that has one. *)
Lemma find_offending_Some tokens t :
  t ∈ tokens -> t <> "read" -> t <> "write" ->
  exists bad before after,
    tokens = (before ++ bad :: after) /\
    Forall (fun t => t = "read" \/ t = "write") before /\
    bad <> "read" /\ bad <> "write" /\
    List.find (fun t => negb (is_operation_name t)) tokens = Some bad.
Proof.
  intros Hin Hr Hw.
  induction tokens as [|u tokens IH]; [by apply elem_of_nil in Hin|].
  destruct (is_operation_name u) eqn:Hu.
  - apply elem_of_cons in Hin as [->|Hin].
    { apply is_operation_name_true in Hu. tauto. }
    destruct (IH Hin) as (bad & before & after & -> & Hb & Hbr & Hbw & Hf).
    exists bad, (u :: before), after. simpl. rewrite Hu. simpl.
    repeat split; try done.
    constructor; [by apply is_operation_name_true|done].
  - apply is_operation_name_false in Hu as Hu'. destruct Hu' as [Hur Huw].
    exists u, [], tokens. simpl. by rewrite Hu.
Qed.

Lemma ParseOperations_cons prog tokens :
  ParseOperations (prog :: tokens) =
  match List.find (fun t => negb (is_operation_name t)) tokens with
  | Some bad => Throw (invalid_argument bad)
  | None => if Nat.eqb (length tokens) 0 then Throw no_arguments
            else Return (Operation_of_name <$> tokens)
  end.
Proof.
  unfold ParseOperations.
  change (drop 1 (prog :: tokens)) with tokens.
  rewrite ParseOperations_loop_spec.
  destruct (List.find _ tokens); [reflexivity|].
  simpl. by rewrite length_fmap.
Qed.

(** Whatever the parser returns holds only the two enumerators. *)
Lemma ParseOperations_tags argv operations :
  ParseOperations argv = Return operations ->
  Forall (fun op => op = kRead \/ op = kWrite) operations.
Proof.
  unfold ParseOperations. rewrite ParseOperations_loop_spec.
  destruct (List.find _ _); [done|]. simpl.
  destruct (Nat.eqb _ 0); [done|]. intros [= <-].
  apply Forall_fmap, Forall_true. intros t. simpl.
  unfold Operation_of_name. destruct (String.eqb t "read"); auto.
Qed.

(** C1, as the code has it. For every argument list made of [read] and
    [write] only, at least one of them, [ParseOperations] returns a vector
    of the same length whose i-th element is [kRead] exactly when the i-th
    word is [read] and [kWrite] exactly when it is [write].  For every
    argument list with a word that is neither (this parser knows no flag:
    [--key] and [--value] are such words), it throws the
    [ArgParseException] whose text is [invalid argument: ] followed by the
    first such word: the words before it are all [read] or [write],
    whatever the words after it are. *)
Theorem ParseOperations_read_write (prog : string) (tokens : list string) :
  (tokens <> [] ->
   Forall (fun t => t = "read" \/ t = "write") tokens ->
   exists operations,
     ParseOperations (prog :: tokens) = Return operations /\
     length operations = length tokens /\
     forall i t, tokens !! i = Some t ->
       exists op, operations !! i = Some op /\
         (op = kRead <-> t = "read") /\ (op = kWrite <-> t = "write"))
  /\
  (forall t, t ∈ tokens -> t <> "read" -> t <> "write" ->
   exists bad before after,
     tokens = (before ++ bad :: after) /\
     Forall (fun t => t = "read" \/ t = "write") before /\
     bad <> "read" /\ bad <> "write" /\
     ParseOperations (prog :: tokens) = Throw (invalid_argument bad) /\
     exists rest, what (invalid_argument bad) = "invalid argument: " +:+ bad +:+ rest).
Proof.
  split.
  - intros Hne Hall. exists (Operation_of_name <$> tokens).
    rewrite ParseOperations_cons, (find_offending_None _ Hall).
    destruct tokens as [|t0 tokens']; [done|]. simpl Nat.eqb. cbv iota.
    split; [done|]. split; [by rewrite length_fmap|].
    intros i t Hi. exists (Operation_of_name t).
    rewrite list_lookup_fmap, Hi. split; [done|].
    assert (Ht : t = "read" \/ t = "write").
    { rewrite Forall_forall in Hall. apply Hall.
      by eapply list_elem_of_lookup_2. }
    unfold Operation_of_name, kRead, kWrite.
    destruct Ht as [-> | ->]; simpl; split; split; done.
  - intros t Hin Hr Hw.
    destruct (find_offending_Some tokens t Hin Hr Hw)
      as (bad & before & after & Htok & Hb & Hbr & Hbw & Hf).
    exists bad, before, after. rewrite ParseOperations_cons, Hf.
    repeat split; try done. eexists. reflexivity.
Qed.

Lemma ParseOperations_read_write_witness :
  (exists operations,
     ParseOperations ["app"; "write"; "read"; "read"] = Return operations /\
     length operations = 3%nat /\
     operations !! 0%nat = Some kWrite /\ operations !! 2%nat = Some kRead) /\
  (exists bad,
     ParseOperations ["app"; "read"; "help"; "write"; "--x"] = Throw (invalid_argument bad) /\
     bad = "help").
Proof.
  split.
  - destruct (ParseOperations_read_write "app" ["write"; "read"; "read"]) as [H _].
    destruct (H ltac:(done) ltac:(repeat (apply Forall_cons_2; [auto|]); apply Forall_nil_2))
      as (operations & Hp & Hlen & Hnth).
    exists operations. split; [done|]. split; [done|].
    destruct (Hnth 0%nat "write" eq_refl) as (op0 & H0 & _ & Hw0).
    destruct (Hnth 2%nat "read" eq_refl) as (op2 & H2 & Hr2 & _).
    rewrite H0, H2. split; f_equal; tauto.
  - destruct (ParseOperations_read_write "app" ["read"; "help"; "write"; "--x"]) as [_ H].
    destruct (H "--x" ltac:(set_solver) ltac:(done) ltac:(done))
      as (bad & before & after & Htok & Hb & Hbr & Hbw & Hp & _).
    exists bad. split; [done|].
    destruct before as [|b0 [|b1 before]]; simplify_eq/=; try done.
    + apply Forall_cons in Hb as [_ Hb]. apply Forall_cons in Hb as [[?|?] _]; done.
Defined.

(** C5. With no word after the program name, [ParseOperations] throws
    (the [No arguments specified] exception), and no argument list at all
    makes it return an empty vector. *)
Theorem ParseOperations_never_empty :
  (forall argv, (length argv <= 1)%nat -> ParseOperations argv = Throw no_arguments) /\
  (forall argv, ParseOperations argv <> Return []).
Proof.
  split.
  - intros [|prog [|t argv]] Hlen; simpl in Hlen; [done | done | lia].
  - intros argv. unfold ParseOperations.
    destruct (ParseOperations_loop _ _) as [e|operations]; [done|].
    destruct operations; simpl; done.
Qed.

Lemma ParseOperations_never_empty_witness :
  ParseOperations ["app"] = Throw no_arguments /\
  ParseOperations [] = Throw no_arguments /\
  ParseOperations ["app"; "read"] <> Return [].
Proof.
  destruct ParseOperations_never_empty as [Hthrow Hne].
  split; [apply Hthrow; simpl; lia|].
  split; [apply Hthrow; simpl; lia|].
  apply Hne.
Defined.

(** ** The runner *)

Section Properties.
Context {sdk : Sdk}.

Lemma AwaitCompletion_run future name r :
  AwaitCompletion future name r =
  match status future with
  | kFutureStatusPending =>
      {| value := None; printed := [Logged [PText name; PText " start"]]; remote := r |}
  | _ =>
      {| value := Some tt;
         printed := [Logged [PText name; PText " start"]; Awaited;
                     Logged (completion_line name future)];
         remote := r |}
  end.
Proof.
  unfold AwaitCompletion, AwaitInvoked, completion_line, bind, Log, emit, blocked.
  destruct (status future); simpl; try done;
    destruct (error future =? Error_value kErrorOk); reflexivity.
Qed.

Lemma DoRead_entries_run entries entry_index r :
  DoRead_entries entries entry_index r =
  {| value := Some tt;
     printed := imap (fun k entry =>
                  Logged [PText "Entry #"; PInt (entry_index + Z.of_nat k + 1);
                          PText ": "; PText entry.1; PText "="; PField entry.2])
                entries;
     remote := r |}.
Proof.
  revert entry_index.
  induction entries as [|entry entries IH]; intros entry_index; [done|].
  simpl. unfold bind, Log, emit. simpl. rewrite IH. simpl.
  f_equal. f_equal; [by rewrite Z.add_0_r|].
  apply imap_ext. intros k e _. simpl.
  by replace (entry_index + 1 + Z.of_nat k + 1) with (entry_index + Z.of_nat (S k) + 1) by lia.
Qed.

(** [DoRead] in closed form. *)
Lemma DoRead_run doc r :
  let future := (DocumentReference_Get (path doc) kServer r).1 in
  let r' := (DocumentReference_Get (path doc) kServer r).2 in
  DoRead doc r =
  match status (base future) with
  | kFutureStatusPending =>
      {| value := None;
         printed := [Logged [PText "*** DoRead() doc="; PText (path doc)];
                     Issued (ReqGet (path doc) kServer);
                     Logged [PText "DocumentReference.Get()"; PText " start"]];
         remote := r' |}
  | _ =>
      {| value := Some tt;
         printed := [Logged [PText "*** DoRead() doc="; PText (path doc)];
                     Issued (ReqGet (path doc) kServer);
                     Logged [PText "DocumentReference.Get()"; PText " start"];
                     Awaited;
                     Logged (completion_line "DocumentReference.Get()" (base future))]
                    ++ (Logged <$> record_lines (GetData future));
         remote := r' |}
  end.
Proof.
  intros future r'. unfold DoRead, bind, Log, emit, call.
  cbn -[AwaitCompletion DoRead_entries].
  rewrite !AwaitCompletion_run, !DoRead_entries_run. fold future r'.
  destruct (status (base future)); simpl; try done.
  all: unfold record_lines; simpl; do 7 f_equal.
  all: rewrite fmap_imap; apply imap_ext; intros k e _; simpl; done.
Qed.

(** [DoWrite] in closed form. *)
Lemma DoWrite_run doc r :
  let map : gmap string FieldValue := {["meaning" := Integer 42]} in
  let future := (DocumentReference_Set (path doc) map r).1 in
  let r' := (DocumentReference_Set (path doc) map r).2 in
  DoWrite doc r =
  match status future with
  | kFutureStatusPending =>
      {| value := None;
         printed := [Logged [PText "*** DoWrite() doc="; PText (path doc)];
                     Issued (ReqSet (path doc) map);
                     Logged [PText "DocumentReference.Set()"; PText " start"]];
         remote := r' |}
  | _ =>
      {| value := Some tt;
         printed := [Logged [PText "*** DoWrite() doc="; PText (path doc)];
                     Issued (ReqSet (path doc) map);
                     Logged [PText "DocumentReference.Set()"; PText " start"];
                     Awaited;
                     Logged (completion_line "DocumentReference.Set()" future)];
         remote := r' |}
  end.
Proof.
  intros map future r'. unfold DoWrite, bind, Log, emit, call.
  cbn -[AwaitCompletion insert]. rewrite insert_empty.
  rewrite !AwaitCompletion_run. fold map future r'.
  destruct (status future); reflexivity.
Qed.

Lemma issued_app t1 t2 : issued (t1 ++ t2) = (issued t1 ++ issued t2).
Proof. apply omap_app. Qed.

Lemma lines_app t1 t2 : lines (t1 ++ t2) = (lines t1 ++ lines t2).
Proof. apply omap_app. Qed.

Lemma awaited_app t1 t2 : awaited (t1 ++ t2) = (awaited t1 + awaited t2)%nat.
Proof. unfold awaited. by rewrite omap_app, length_app. Qed.

Lemma issued_Logged ls : issued (Logged <$> ls) = [].
Proof. induction ls; simpl; done. Qed.

Lemma awaited_Logged ls : awaited (Logged <$> ls) = 0%nat.
Proof. induction ls; simpl; done. Qed.

Lemma lines_Logged ls : lines (Logged <$> ls) = ls.
Proof. induction ls as [|l ls IH]; csimpl; [done|]. by f_equal. Qed.

Lemma one_at_a_time_Logged b ls t :
  one_at_a_time b ((Logged <$> ls) ++ t) = one_at_a_time b t.
Proof. induction ls; simpl; done. Qed.

Lemma record_lines_not_internal data :
  Forall (fun l => is_internal_error l = false) (record_lines data).
Proof.
  unfold record_lines. constructor; [done|].
  apply Forall_forall. intros l Hl.
  apply list_elem_of_lookup in Hl as [k Hk].
  rewrite list_lookup_imap in Hk.
  destruct (data !! k); simplify_eq/=. done.
Qed.

Lemma completion_line_not_internal future :
  is_internal_error (completion_line "DocumentReference.Get()" future) = false /\
  is_internal_error (completion_line "DocumentReference.Set()" future) = false.
Proof. unfold completion_line. by destruct (error future =? _). Qed.

Lemma DoRead_one_operation doc r :
  one_operation (ReqGet (path doc) kServer) (DoRead doc r).
Proof.
  rewrite DoRead_run. unfold one_operation.
  destruct (status _) eqn:Hs; cbn [value printed remote].
  2: { split; [done|]. split; [by repeat constructor|]. right. done. }
  all: rewrite issued_app, lines_app, awaited_app.
  all: rewrite issued_Logged, lines_Logged, awaited_Logged.
  all: split; [done|]; split.
  1,3: apply Forall_app; split; [|apply record_lines_not_internal].
  1,2: simpl; repeat (constructor; [first [done | apply completion_line_not_internal]|]).
  1,2: constructor.
  all: left; split; [done|]; split; [done|]; intros t.
  all: rewrite <- app_assoc; simpl; apply one_at_a_time_Logged.
Qed.

Lemma DoWrite_one_operation doc r :
  one_operation (ReqSet (path doc) {["meaning" := Integer 42]}) (DoWrite doc r).
Proof.
  rewrite DoWrite_run. unfold one_operation.
  destruct (status _) eqn:Hs; simpl.
  - split; [done|]. split.
    + repeat (constructor; [first [done | apply completion_line_not_internal]|]).
      constructor.
    + left. done.
  - split; [done|]. split; [by repeat constructor|]. right. done.
  - split; [done|]. split.
    + repeat (constructor; [first [done | apply completion_line_not_internal]|]).
      constructor.
    + left. done.
Qed.

Lemma bind_Some {A B} (m : Prog A) (k : A -> Prog B) r a :
  value (m r) = Some a ->
  bind m k r =
  {| value := value (k a (remote (m r)));
     printed := printed (m r) ++ printed (k a (remote (m r)));
     remote := remote (k a (remote (m r))) |}.
Proof. intros H. unfold bind. by rewrite H. Qed.

Lemma bind_None {A B} (m : Prog A) (k : A -> Prog B) r :
  value (m r) = None ->
  bind m k r = {| value := None; printed := printed (m r); remote := remote (m r) |}.
Proof. intros H. unfold bind. by rewrite H. Qed.

(** The loop over a vector that holds only the two enumerators: it issues
    the requests of the first [n] operations, in order and one at a time;
    either it runs off the end of the vector with all of them waited for,
    or it is blocked in the wait of the [n]-th.  It never prints the line
    of the [default:] label and never returns from inside the loop. *)
Lemma main_loop_run doc operations r :
  Forall (fun op => op = kRead \/ op = kWrite) operations ->
  let x := main_loop doc operations r in
  exists n, (n <= length operations)%nat /\
    issued (printed x) = request_of doc <$> take n operations /\
    Forall (fun l => is_internal_error l = false) (lines (printed x)) /\
    ((value x = Some None /\ n = length operations /\
      awaited (printed x) = n /\
      one_at_a_time false (printed x) = Some false)
     \/
     (value x = None /\ (0 < n)%nat /\
      awaited (printed x) = Nat.pred n /\
      one_at_a_time false (printed x) = Some true)).
Proof.
  intros Htags. revert r.
  induction Htags as [|operation operations Hop _ IH]; intros r; simpl.
  { exists 0%nat. split; [done|]. split; [done|]. split; [constructor|].
    left. done. }
  assert (Hstep : exists step : Prog unit,
             one_operation (request_of doc operation) (step r) /\
             main_loop doc (operation :: operations) r =
             bind step (fun _ => main_loop doc operations) r).
  { destruct Hop as [-> | ->].
    - exists (DoRead doc). split; [apply DoRead_one_operation|done].
    - exists (DoWrite doc). split; [apply DoWrite_one_operation|done]. }
  destruct Hstep as (step & (Hq & Hl & Hrun) & Heq).
  simpl in Heq. rewrite Heq. clear Heq.
  destruct Hrun as [(Hv & Ha & Hone) | (Hv & Ha & Hone)].
  - rewrite (bind_Some _ _ _ _ Hv). cbn [value printed remote].
    destruct (IH (remote (step r))) as (n & Hn & Hi & Hli & Hcase).
    exists (S n). split; [lia|].
    rewrite issued_app, lines_app, awaited_app, Hq, Hi, Ha, Hone.
    split; [done|]. split; [by apply Forall_app|].
    destruct Hcase as [(Hv' & -> & Ha' & Hone') | (Hv' & Hpos & Ha' & Hone')].
    + left. rewrite Ha'. done.
    + right. rewrite Ha'. repeat split; try done; lia.
  - rewrite (bind_None _ _ _ Hv). cbn [value printed remote].
    exists 1%nat. split; [lia|]. rewrite Hq, Ha, Hone.
    split; [done|]. split; [done|]. right. repeat split; try done; lia.
Qed.

(** When every handle settles, the loop runs off the end of the vector. *)
Lemma main_loop_settles doc operations r :
  always_settles ->
  Forall (fun op => op = kRead \/ op = kWrite) operations ->
  value (main_loop doc operations r) = Some None.
Proof.
  intros [Hget Hset] Htags. revert r.
  induction Htags as [|operation operations Hop _ IH]; intros r; [done|].
  destruct Hop as [-> | ->]; simpl.
  - assert (Hv : value (DoRead doc r) = Some tt).
    { rewrite DoRead_run. specialize (Hget (path doc) kServer r).
      by destruct (status _). }
    rewrite (bind_Some _ _ _ _ Hv). apply IH.
  - assert (Hv : value (DoWrite doc r) = Some tt).
    { rewrite DoWrite_run. specialize (Hset (path doc) {["meaning" := Integer 42]} r).
      by destruct (status _). }
    rewrite (bind_Some _ _ _ _ Hv). apply IH.
Qed.

(** [main] in closed form. *)
Lemma main_run argv r :
  main argv r =
  match ParseOperations argv with
  | Throw e =>
      {| value := Some 2;
         printed := [Logged [PText "ERROR: Invalid command-line arguments: "; PText (what e)]];
         remote := r |}
  | Return operations =>
      let r1 := (App_Create r).2 in
      if (App_Create r).1 then
        let r2 := (Firestore_GetInstance r1).2 in
        if (Firestore_GetInstance r1).1 then
          let x := main_loop (Document "UnityIssue1154TestApp/TestDoc") operations r2 in
          {| value := match value x with
                      | Some (Some code) => Some code
                      | Some None => Some 0
                      | None => None
                      end;
             printed := [Logged [PText "Creating firebase::App"];
                         Logged [PText "Creating firebase::firestore::Firestore"];
                         Logged (performing_line operations)] ++ printed x;
             remote := remote x |}
        else
          {| value := Some 1;
             printed := [Logged [PText "Creating firebase::App"];
                         Logged [PText "Creating firebase::firestore::Firestore"];
                         Logged [PText "ERROR: Creating firebase::firestore::Firestore FAILED!"]];
             remote := r2 |}
      else
        {| value := Some 1;
           printed := [Logged [PText "Creating firebase::App"];
                       Logged [PText "ERROR: Creating firebase::App FAILED!"]];
           remote := r1 |}
  end.
Proof.
  unfold main. destruct (ParseOperations argv) as [e|operations]; [done|].
  unfold bind, Log, emit, call. cbn -[main_loop].
  destruct (App_Create r) as [[] r1]; cbn -[main_loop]; [|done].
  destruct (Firestore_GetInstance r1) as [[] r2]; cbn -[main_loop]; [|done].
  destruct (main_loop _ operations r2) as [[[code|]|] t r3]; simpl.
  all: by rewrite ?app_nil_r.
Qed.

Lemma Request_operation_request_of doc operations :
  Forall (fun op => op = kRead \/ op = kWrite) operations ->
  Request_operation <$> (request_of doc <$> operations) = operations.
Proof.
  induction 1 as [|op operations Hop _ IH]; csimpl; [done|].
  rewrite IH. by destruct Hop as [-> | ->].
Qed.

(** What a run of [main] that got past the setup looks like. *)
Lemma main_operations argv operations r :
  ParseOperations argv = Return operations ->
  (App_Create r).1 = true ->
  (Firestore_GetInstance (App_Create r).2).1 = true ->
  exists body n,
    printed (main argv r) =
      [Logged [PText "Creating firebase::App"];
       Logged [PText "Creating firebase::firestore::Firestore"];
       Logged (performing_line operations)] ++ body /\
    (n <= length operations)%nat /\
    issued body = request_of (Document "UnityIssue1154TestApp/TestDoc") <$> take n operations /\
    Forall (fun l => is_internal_error l = false) (lines body) /\
    ((value (main argv r) = Some 0 /\ n = length operations /\
      awaited body = n /\ one_at_a_time false body = Some false)
     \/
     (value (main argv r) = None /\ (0 < n)%nat /\
      awaited body = Nat.pred n /\ one_at_a_time false body = Some true)).
Proof.
  intros Hparse Happ Hfs. rewrite main_run, Hparse. cbv zeta. rewrite Happ, Hfs.
  cbn [value printed remote].
  pose proof (ParseOperations_tags _ _ Hparse) as Htags.
  destruct (main_loop_run (Document "UnityIssue1154TestApp/TestDoc") operations
              (Firestore_GetInstance (App_Create r).2).2 Htags)
    as (n & Hn & Hi & Hl & Hcase).
  eexists _, n. split; [reflexivity|]. split; [done|]. split; [done|].
  split; [done|].
  destruct Hcase as [(Hv & Hlen & Ha & Hone) | (Hv & Hpos & Ha & Hone)].
  - left. by rewrite Hv.
  - right. by rewrite Hv.
Qed.

(** Past the setup, and with handles that settle, [main] returns 0. *)
Lemma main_settles argv operations r :
  ParseOperations argv = Return operations ->
  (App_Create r).1 = true ->
  (Firestore_GetInstance (App_Create r).2).1 = true ->
  always_settles ->
  value (main argv r) = Some 0.
Proof.
  intros Hparse Happ Hfs Hsettles.
  rewrite main_run, Hparse. cbv zeta. rewrite Happ, Hfs. cbn [value].
  rewrite main_loop_settles; [done | done |]. by eapply ParseOperations_tags.
Qed.

(** C4. The exit status of [main] is 2 when [ParseOperations] throws; 1
    when [App::Create] or [Firestore::GetInstance] returns null; and, past
    the setup, 0 once every operation of the vector has been issued and
    waited for, whatever error the handles completed with.  (Past the
    setup the only other outcome is that the process never exits: it is
    blocked in the wait of a handle that stays pending, with fewer waits
    returned than there are operations.)  The [default:] label of the
    dispatch, on a value that is neither enumerator, makes the loop
    return 1. *)
Theorem main_exit_status (argv : list string) (r : Remote) :
  (forall e, ParseOperations argv = Throw e -> value (main argv r) = Some 2) /\
  (forall operations, ParseOperations argv = Return operations ->
     (App_Create r).1 = false \/
     (Firestore_GetInstance (App_Create r).2).1 = false ->
     value (main argv r) = Some 1) /\
  (forall operations, ParseOperations argv = Return operations ->
     (App_Create r).1 = true ->
     (Firestore_GetInstance (App_Create r).2).1 = true ->
     (value (main argv r) = Some 0 /\
      Request_operation <$> issued (printed (main argv r)) = operations /\
      awaited (printed (main argv r)) = length operations)
     \/
     (value (main argv r) = None /\
      (awaited (printed (main argv r)) < length operations)%nat)) /\
  (forall operations, ParseOperations argv = Return operations ->
     (App_Create r).1 = true ->
     (Firestore_GetInstance (App_Create r).2).1 = true ->
     always_settles ->
     value (main argv r) = Some 0) /\
  (forall doc operation operations r',
     operation <> kRead -> operation <> kWrite ->
     value (main_loop doc (operation :: operations) r') = Some (Some 1)).
Proof.
  split; [|split; [|split; [|split]]].
  - intros e He. by rewrite main_run, He.
  - intros operations Hparse Hsetup. rewrite main_run, Hparse. cbv zeta.
    destruct (App_Create r).1; [|done].
    destruct Hsetup as [?|Hfs]; [done|]. by rewrite Hfs.
  - intros operations Hparse Happ Hfs.
    destruct (main_operations argv operations r Hparse Happ Hfs)
      as (body & n & -> & Hn & Hi & _ & Hcase).
    rewrite issued_app, awaited_app. simpl.
    destruct Hcase as [(Hv & -> & Ha & _) | (Hv & Hpos & Ha & _)].
    + left. split; [done|]. split; [|done].
      rewrite Hi, take_ge by done.
      apply Request_operation_request_of. by eapply ParseOperations_tags.
    + right. split; [done|]. rewrite Ha. lia.
  - intros operations. apply main_settles.
  - intros doc operation operations r' Hr Hw. simpl.
    apply Z.eqb_neq in Hr, Hw. by rewrite Hr, Hw.
Qed.

(** One turn of the loop on an enumerator: the one request, the one call,
    and a wait that does not return exactly when the handle of that call
    stays pending. *)
Lemma main_loop_step doc operation operations r :
  operation = kRead \/ operation = kWrite ->
  exists step : Prog unit,
    main_loop doc (operation :: operations) r =
      bind step (fun _ => main_loop doc operations) r /\
    one_operation (request_of doc operation) (step r) /\
    remote (step r) = after_operation doc r operation /\
    (value (step r) = None <->
     status (handle_of doc r operation) = kFutureStatusPending).
Proof.
  intros [-> | ->].
  - exists (DoRead doc). split; [done|]. split; [apply DoRead_one_operation|].
    rewrite DoRead_run. unfold after_operation, handle_of. simpl.
    destruct (status _); split; done.
  - exists (DoWrite doc). split; [done|]. split; [apply DoWrite_one_operation|].
    rewrite DoWrite_run. unfold after_operation, handle_of. simpl.
    destruct (status _); split; done.
Qed.

(** The loop against the handles the collaborator hands out: either they
    all settle, and the loop runs off the end of the vector with every
    request issued and waited for; or it is blocked in the wait of the first
    one that stays pending, with the requests up to that one issued and
    none after it. *)
Lemma main_loop_handles doc operations r :
  Forall (fun op => op = kRead \/ op = kWrite) operations ->
  let x := main_loop doc operations r in
  let futures := handles doc r operations in
  exists n, (n <= length operations)%nat /\
    issued (printed x) = request_of doc <$> take n operations /\
    remote x = foldl (after_operation doc) r (take n operations) /\
    ((Forall settled futures /\ n = length operations /\
      awaited (printed x) = n /\
      one_at_a_time false (printed x) = Some false /\
      value x = Some None)
     \/
     (exists i future, futures !! i = Some future /\
        status future = kFutureStatusPending /\
        Forall settled (take i futures) /\
        n = S i /\ awaited (printed x) = i /\
        one_at_a_time false (printed x) = Some true /\
        value x = None)).
Proof.
  intros Htags. revert r.
  induction Htags as [|operation operations Hop _ IH]; intros r.
  { exists 0%nat. split; [done|]. split; [done|]. split; [done|].
    left. by repeat split. }
  destruct (main_loop_step doc operation operations r Hop)
    as (step & Heq & (Hq & _ & Hrun) & Hr & Hblock).
  cbv zeta. rewrite Heq. clear Heq. cbn [handles].
  destruct Hrun as [(Hv & Ha & Hone) | (Hv & Ha & Hone)].
  - assert (Hs : settled (handle_of doc r operation)).
    { intros Hp. apply Hblock in Hp. congruence. }
    rewrite (bind_Some _ _ _ _ Hv). cbn [value printed remote].
    destruct (IH (remote (step r))) as (n & Hn & Hi & Hrem & Hcase).
    rewrite Hr in Hi, Hrem, Hcase.
    exists (S n). split; [simpl; lia|].
    rewrite issued_app, awaited_app, Hq, Ha, Hone, Hr, Hi, Hrem.
    split; [done|]. split; [done|].
    destruct Hcase as [(Hall & -> & Ha' & Hone' & Hv')
                      | (i & future & Hi' & Hp & Hbefore & -> & Ha' & Hone' & Hv')].
    + left. rewrite Ha'. repeat split; try done. by constructor.
    + right. exists (S i), future. rewrite Ha'. repeat split; try done.
      simpl. by constructor.
  - assert (Hp : status (handle_of doc r operation) = kFutureStatusPending).
    { by apply Hblock. }
    rewrite (bind_None _ _ _ Hv). cbn [value printed remote].
    exists 1%nat. split; [simpl; lia|]. rewrite Hq, Ha, Hone, Hr.
    split; [done|]. split; [done|].
    right. exists 0%nat, (handle_of doc r operation).
    repeat split; done.
Qed.

(** C8. Once the arguments are parsed and the setup is through, [main]
    prints the line with the number of operations before it issues any
    request, and the requests it issues are those of the leading
    operations of the vector, in the order of the vector, the call of each
    made in the state the calls before it have left.  How far it gets is
    decided by the handles alone, not by their error codes: when every
    handle settles (with an error or without) all the operations are
    issued, each one waited for with none other outstanding, and [main]
    returns 0; otherwise the run is blocked in the wait of the first
    handle that stays pending, every operation up to that one having been
    issued and those before it waited for, and no operation after it is
    ever issued. *)
Theorem operations_run_in_order (argv : list string) (operations : list Operation)
    (r : Remote) :
  let doc := Document "UnityIssue1154TestApp/TestDoc" in
  let r0 := (Firestore_GetInstance (App_Create r).2).2 in
  let futures := handles doc r0 operations in
  ParseOperations argv = Return operations ->
  (App_Create r).1 = true ->
  (Firestore_GetInstance (App_Create r).2).1 = true ->
  exists setup body n,
    printed (main argv r) = setup ++ Logged (performing_line operations) :: body /\
    issued setup = [] /\
    (n <= length operations)%nat /\
    issued body = request_of doc <$> take n operations /\
    remote (main argv r) = foldl (after_operation doc) r0 (take n operations) /\
    ((Forall settled futures /\ n = length operations /\
      awaited body = n /\
      one_at_a_time false body = Some false /\
      value (main argv r) = Some 0)
     \/
     (exists i future, futures !! i = Some future /\
        status future = kFutureStatusPending /\
        Forall settled (take i futures) /\
        n = S i /\ awaited body = i /\
        one_at_a_time false body = Some true /\
        value (main argv r) = None)).
Proof.
  intros doc r0 futures Hparse Happ Hfs.
  pose proof (ParseOperations_tags _ _ Hparse) as Htags.
  destruct (main_loop_handles doc operations r0 Htags)
    as (n & Hn & Hi & Hrem & Hcase).
  exists [Logged [PText "Creating firebase::App"];
          Logged [PText "Creating firebase::firestore::Firestore"]],
         (printed (main_loop doc operations r0)), n.
  rewrite main_run, Hparse. cbv zeta. rewrite Happ, Hfs.
  cbn [value printed remote]. fold doc r0.
  split; [done|]. split; [done|]. split; [done|]. split; [done|].
  split; [done|].
  destruct Hcase as [(Hall & Hlen & Ha & Hone & Hv)
                    | (i & future & Hi' & Hp & Hbefore & Hlen & Ha & Hone & Hv)].
  - left. by rewrite Hv.
  - right. exists i, future. by rewrite Hv.
Qed.

(** Every request [main] issues is on the fixed document: a read from the
    server, or a write of the one field [meaning]. *)
Lemma main_issued argv r q :
  q ∈ issued (printed (main argv r)) ->
  q = ReqGet "UnityIssue1154TestApp/TestDoc" kServer \/
  q = ReqSet "UnityIssue1154TestApp/TestDoc" {["meaning" := Integer 42]}.
Proof.
  rewrite main_run.
  destruct (ParseOperations argv) as [e|operations] eqn:Hparse.
  { intros H. by apply elem_of_nil in H. }
  cbv zeta. destruct (App_Create r).1 eqn:Happ.
  2: { intros H. by apply elem_of_nil in H. }
  destruct (Firestore_GetInstance _).1 eqn:Hfs.
  2: { intros H. by apply elem_of_nil in H. }
  cbn [printed]. rewrite issued_app. simpl.
  pose proof (ParseOperations_tags _ _ Hparse) as Htags.
  destruct (main_loop_run (Document "UnityIssue1154TestApp/TestDoc") operations
              (Firestore_GetInstance (App_Create r).2).2 Htags)
    as (n & _ & -> & _).
  intros (op & -> & Hop%subseteq_take)%list_elem_of_fmap.
  rewrite Forall_forall in Htags.
  destruct (Htags op Hop) as [-> | ->]; [by left | by right].
Qed.

(** C9. For every command line and every state of the collaborator, each
    write [main] issues is on the document [UnityIssue1154TestApp/TestDoc]
    and carries the map with the single field [meaning], whose value is
    [FieldValue::Integer(42)]. *)
Theorem writes_set_meaning_42 (argv : list string) (r : Remote)
    (path : string) (map : gmap string FieldValue) :
  ReqSet path map ∈ issued (printed (main argv r)) ->
  path = "UnityIssue1154TestApp/TestDoc" /\
  map = {["meaning" := Integer 42]} /\
  size map = 1%nat /\
  map !! "meaning" = Some (Integer 42).
Proof.
  intros [H|H]%main_issued; [done|]. injection H as -> ->.
  split; [done|]. split; [done|]. split; [apply map_size_singleton|].
  apply lookup_singleton_eq.
Qed.

(** C10. The vector [ParseOperations] returns holds only [kRead] and
    [kWrite]; on such a vector the loop of [main] never takes the
    [default:] label: it does not return from inside the loop, and no run
    of [main] prints the [INTERNAL ERROR] line.  An exit status of 1 comes
    from the setup alone. *)
Theorem default_label_unreachable (argv : list string) (r : Remote) :
  (forall operations, ParseOperations argv = Return operations ->
     Forall (fun op => op = kRead \/ op = kWrite) operations /\
     forall doc r' code, value (main_loop doc operations r') <> Some (Some code)) /\
  (forall operation, Logged (internal_error_line operation) ∉ printed (main argv r)) /\
  (value (main argv r) = Some 1 ->
   exists operations, ParseOperations argv = Return operations /\
     ((App_Create r).1 = false \/
      (Firestore_GetInstance (App_Create r).2).1 = false)).
Proof.
  split; [|split].
  - intros operations Hparse.
    pose proof (ParseOperations_tags _ _ Hparse) as Htags.
    split; [done|]. intros doc r' code.
    destruct (main_loop_run doc operations r' Htags) as (n & _ & _ & _ & Hcase).
    destruct Hcase as [(-> & _) | (-> & _)]; done.
  - intros operation Hin.
    assert (Hl : internal_error_line operation ∈ lines (printed (main argv r))).
    { unfold lines. apply list_elem_of_omap. by exists (Logged (internal_error_line operation)). }
    clear Hin. revert Hl. rewrite main_run.
    destruct (ParseOperations argv) as [e|operations] eqn:Hparse.
    { simpl. intros H%list_elem_of_singleton. done. }
    cbv zeta. destruct (App_Create r).1 eqn:Happ.
    2: { simpl. rewrite !elem_of_cons, elem_of_nil.
         intros [H|[H|[]]]; done. }
    destruct (Firestore_GetInstance _).1 eqn:Hfs.
    2: { simpl. rewrite !elem_of_cons, elem_of_nil.
         intros [H|[H|[H|[]]]]; done. }
    cbn [printed]. rewrite lines_app. simpl.
    pose proof (ParseOperations_tags _ _ Hparse) as Htags.
    destruct (main_loop_run (Document "UnityIssue1154TestApp/TestDoc") operations
                (Firestore_GetInstance (App_Create r).2).2 Htags)
      as (n & _ & _ & Hl & _).
    rewrite !elem_of_cons. intros [H|[H|[H|H]]]; try done.
    rewrite Forall_forall in Hl. by specialize (Hl _ H).
  - rewrite main_run.
    destruct (ParseOperations argv) as [e|operations] eqn:Hparse; [done|].
    cbv zeta. intros Hv. exists operations. split; [done|].
    destruct (App_Create r).1 eqn:Happ; [|by left].
    destruct (Firestore_GetInstance _).1 eqn:Hfs; [|by right].
    exfalso. cbn [value] in Hv.
    pose proof (ParseOperations_tags _ _ Hparse) as Htags.
    destruct (main_loop_run (Document "UnityIssue1154TestApp/TestDoc") operations
                (Firestore_GetInstance (App_Create r).2).2 Htags)
      as (n & _ & _ & _ & [(Hv' & _) | (Hv' & _)]);
      rewrite Hv' in Hv; done.
Qed.

(** C3, as the code has it. For every read whose handle settles, [DoRead]
    prints its heading and the [start] line, then [done] when the error
    code is [kErrorOk] and otherwise the [FAILED] line with the symbolic
    name of the code and the error message; and then, in both cases, the
    number of fields of the record the handle's result yields, followed by
    one line per field with its name and value, numbered from 1, in the
    order in which the map that [GetData] returns is walked; and it
    returns. *)
Theorem DoRead_log (doc : DocumentReference) (r : Remote) :
  let future := (DocumentReference_Get (path doc) kServer r).1 in
  status (base future) <> kFutureStatusPending ->
  lines (printed (DoRead doc r)) =
    [ [PText "*** DoRead() doc="; PText (path doc)];
      [PText "DocumentReference.Get()"; PText " start"];
      (if error (base future) =? Error_value kErrorOk then
         [PText "DocumentReference.Get()"; PText " done"]
       else
         [PText "DocumentReference.Get()"; PText " FAILED: ";
          PText (FirestoreErrorNameFromErrorCode (error (base future)));
          PText " "; PText (error_message (base future))]);
      [PText "Document # key/value pairs: "; PSize (length (GetData future))] ]
    ++ imap (fun k entry =>
               [PText "Entry #"; PInt (Z.of_nat k + 1); PText ": ";
                PText entry.1; PText "="; PField entry.2])
            (GetData future)
  /\ value (DoRead doc r) = Some tt.
Proof.
  intros future Hsettled. rewrite DoRead_run. fold future.
  destruct (status (base future)) eqn:Hs; [| done |].
  all: cbn [printed value]; rewrite lines_app, lines_Logged; split; reflexivity.
Qed.

(** C2, as the code has it. [ParseOperations] knows no flag: an argument
    list with [--key] or [--value] in it makes it throw the
    [invalid argument] exception for the first word that is neither [read]
    nor [write], [main] exits with status 2 and issues no request.  And for
    every argument list, each write carries the fixed field [meaning]
    with [FieldValue::Integer(42)]. *)
Theorem flags_are_invalid_arguments (argv : list string) (r : Remote) :
  ("--key" ∈ drop 1 argv \/ "--value" ∈ drop 1 argv ->
   exists bad before after,
     drop 1 argv = before ++ bad :: after /\
     Forall (fun t => t = "read" \/ t = "write") before /\
     bad <> "read" /\ bad <> "write" /\
     ParseOperations argv = Throw (invalid_argument bad) /\
     value (main argv r) = Some 2 /\
     issued (printed (main argv r)) = []) /\
  (forall path map,
     ReqSet path map ∈ issued (printed (main argv r)) ->
     map = {["meaning" := Integer 42]}).
Proof.
  split.
  - intros Hflag.
    assert (Hbad : exists t, t ∈ drop 1 argv /\ t <> "read" /\ t <> "write").
    { destruct Hflag as [H|H]; eexists; (split; [exact H|done]). }
    destruct argv as [|prog tokens].
    { destruct Hbad as (t & Ht & _). by apply elem_of_nil in Ht. }
    change (drop 1 (prog :: tokens)) with tokens in *.
    destruct Hbad as (t & Ht & Hr & Hw).
    destruct (find_offending_Some tokens t Ht Hr Hw)
      as (bad & before & after & Htok & Hb & Hbr & Hbw & Hf).
    assert (Hparse : ParseOperations (prog :: tokens) = Throw (invalid_argument bad)).
    { by rewrite ParseOperations_cons, Hf. }
    exists bad, before, after.
    split; [done|]. split; [done|]. split; [done|]. split; [done|].
    split; [done|]. by rewrite main_run, Hparse.
  - intros path map [H|H]%main_issued; [done|]. by injection H.
Qed.

(** *** [FirestoreErrorNameFromErrorCode] *)

(** C7. [FirestoreErrorNameFromErrorCode] is a function of its argument
    alone and is defined on every integer.  With the enumerators of
    [Error] pairwise distinct (as the labels of a [switch] are), it never
    returns the empty string; on the value of an enumerator it returns the
    enumerator's name; on every other integer it returns the decimal
    rendering of that integer. *)
Theorem FirestoreErrorNameFromErrorCode_total :
  (forall a b, Error_value a = Error_value b -> a = b) ->
  forall error : Z,
    FirestoreErrorNameFromErrorCode error <> EmptyString /\
    (forall e, error = Error_value e ->
       FirestoreErrorNameFromErrorCode error = Error_name e) /\
    ((forall e, error <> Error_value e) ->
       FirestoreErrorNameFromErrorCode error = to_string error).
Proof.
  intros Hinj error.
  assert (Hne : forall a b, a <> b -> (Error_value a =? Error_value b) = false).
  { intros a b Hab. apply Z.eqb_neq. intros H. by apply Hab, Hinj. }
  assert (Hnamed : forall e, FirestoreErrorNameFromErrorCode (Error_value e) = Error_name e).
  { intros e. unfold FirestoreErrorNameFromErrorCode.
    destruct e; repeat (rewrite Hne by discriminate); by rewrite Z.eqb_refl. }
  assert (Hother : (forall e, error <> Error_value e) ->
                   FirestoreErrorNameFromErrorCode error = to_string error).
  { intros Hoth. unfold FirestoreErrorNameFromErrorCode.
    repeat match goal with
           | |- context [error =? Error_value ?e] =>
               destruct (Z.eqb_spec error (Error_value e)) as [Heq|_];
               [by apply Hoth in Heq|]
           end.
    done. }
  split; [|split].
  - unfold FirestoreErrorNameFromErrorCode.
    repeat match goal with
           | |- context [error =? ?v] => destruct (error =? v); [done|]
           end.
    apply to_string_nonempty.
  - intros e ->. apply Hnamed.
  - exact Hother.
Qed.

End Properties.

(** ** The wait for completion *)

Section AdapterProperties.
Import Adapter.

Lemma invariant_step a s s' :
  invariant s = true -> step a s = Some s' -> invariant s' = true.
Proof.
  destruct s as [[] [[]|] [] []], a; simpl; try discriminate.
  all: intros _ [= <-]; vm_compute; reflexivity.
Qed.

Lemma invariant_reachable s : reachable s -> invariant s = true.
Proof.
  induction 1 as [|a s s' _ IH Hstep]; [reflexivity|].
  by eapply invariant_step.
Qed.

(** The wait does not return on a pending handle. *)
Lemma returned_not_pending s :
  reachable s -> waiter s = Returned -> pending (future_status s) = false.
Proof.
  intros Hinv%invariant_reachable. revert Hinv.
  destruct s as [[] [[]|] [] []]; simpl; try discriminate; done.
Qed.

(** Once the completion callback has returned, the handle is not pending. *)
Lemma fired_not_pending s :
  reachable s -> completion s = Fired -> pending (future_status s) = false.
Proof.
  intros Hinv%invariant_reachable. revert Hinv.
  destruct s as [[] [[]|] [] []]; simpl; try discriminate; done.
Qed.

(** Once the handle has left pending it stays so, every step brings the
    two threads closer to the end, and no step blocks the waiter. *)
Lemma rank_step a s s' :
  invariant s = true ->
  pending (future_status s) = false ->
  step a s = Some s' ->
  pending (future_status s') = false /\ (rank s' < rank s)%nat /\
  (waiter s <> Blocked -> waiter s' <> Blocked).
Proof.
  destruct s as [[] [[]|] [] []], a; simpl; try discriminate.
  all: intros _ _ [= <-]; vm_compute; repeat split; try lia; try done.
Qed.

(** No lost wake-up: as long as the wait has not returned, a step other
    than a spurious wake-up can be taken. *)
Lemma progress s :
  invariant s = true ->
  pending (future_status s) = false ->
  waiter s <> Returned ->
  exists a s', a <> await_wake_spurious /\ step a s = Some s'.
Proof.
  destruct s as [[] [[]|] [] []]; simpl; try discriminate; try done.
  all: intros _ _ _.
  all: first
    [ by exists await_lock; eexists
    | by exists await_test; eexists
    | by exists await_relock; eexists
    | by exists await_unlock; eexists
    | by exists callback_lock; eexists
    | by exists callback_notify_all; eexists
    | by exists callback_unlock; eexists ].
Qed.

Lemma run_reachable actions s s' :
  reachable s -> run actions s = Some s' -> reachable s'.
Proof.
  revert s. induction actions as [|a actions IH]; intros s Hs; simpl.
  - by intros [= <-].
  - destruct (step a s) as [s1|] eqn:Hstep; [|done].
    apply IH. by eapply reachable_step.
Qed.

Lemma run_rank actions s s' :
  invariant s = true ->
  pending (future_status s) = false ->
  run actions s = Some s' ->
  invariant s' = true /\ pending (future_status s') = false /\
  (length actions + rank s' <= rank s)%nat /\
  (waiter s <> Blocked -> waiter s' <> Blocked).
Proof.
  revert s. induction actions as [|a actions IH]; intros s Hinv Hp; simpl.
  - intros [= <-]. repeat split; try done.
  - destruct (step a s) as [s1|] eqn:Hstep; [|done]. intros Hrun.
    destruct (rank_step a s s1 Hinv Hp Hstep) as (Hp1 & Hlt & Hb).
    destruct (IH s1 (invariant_step _ _ _ Hinv Hstep) Hp1 Hrun) as (? & ? & ? & ?).
    repeat split; try done; [lia | auto].
Qed.

Lemma rank_not_pending s :
  invariant s = true -> pending (future_status s) = false -> (rank s <= 7)%nat.
Proof.
  destruct s as [[] [[]|] [] []]; simpl; try discriminate.
  all: intros _ _; vm_compute; lia.
Qed.

Lemma returns_within n s :
  invariant s = true ->
  pending (future_status s) = false ->
  (rank s <= n)%nat ->
  exists actions s',
    run actions s = Some s' /\ waiter s' = Returned /\
    Forall (fun a => a <> await_wake_spurious) actions.
Proof.
  revert s. induction n as [|n IH]; intros s Hinv Hp Hn.
  - exists [], s. split; [done|]. split; [|constructor].
    destruct s as [? ? [] []]; simpl in *; try done; vm_compute in Hn; lia.
  - destruct (decide (waiter s = Returned)) as [Hr|Hr].
    { exists [], s. split; [done|]. split; [done|constructor]. }
    destruct (progress s Hinv Hp Hr) as (a & s1 & Ha & Hstep).
    destruct (rank_step a s s1 Hinv Hp Hstep) as (Hp1 & Hlt & _).
    destruct (IH s1 (invariant_step _ _ _ Hinv Hstep) Hp1 ltac:(lia))
      as (actions & s' & Hrun & Hret & Hall).
    exists (a :: actions), s'. simpl. rewrite Hstep.
    split; [done|]. split; [done|]. by constructor.
Qed.

(** C6. In every state the two threads can reach in which the completion
    callback has fired, or just the handle has left [kFutureStatusPending],
    the wait returns after finitely many steps: whatever the
    threads do from there takes at most seven steps; as long as
    [AwaitInvoked] has not returned, a step other than a spurious wake-up
    can be taken, so nothing is stuck waiting for a notification that has
    already gone by; and a waiter that is not blocked at that point does
    not block at all, the predicate being tested before any wait.  In
    particular this holds when the callback has fired before
    [AwaitInvoked] is entered. *)
Theorem AwaitInvoked_returns (s : State) :
  reachable s ->
  completion s = Fired \/ pending (future_status s) = false ->
  (forall actions s', run actions s = Some s' ->
     (length actions <= 7)%nat /\
     (waiter s <> Blocked -> waiter s' <> Blocked) /\
     (waiter s' = Returned \/
      exists a s'', a <> await_wake_spurious /\ step a s' = Some s'')) /\
  (exists actions s',
     run actions s = Some s' /\ waiter s' = Returned /\
     Forall (fun a => a <> await_wake_spurious) actions).
Proof.
  intros Hreach Hfired.
  assert (Hp : pending (future_status s) = false).
  { destruct Hfired as [Hf|Hp]; [by apply fired_not_pending|done]. }
  apply invariant_reachable in Hreach as Hinv. split.
  - intros actions s' Hrun.
    destruct (run_rank actions s s' Hinv Hp Hrun) as (Hinv' & Hp' & Hlen & Hb).
    pose proof (rank_not_pending s Hinv Hp).
    split; [lia|]. split; [done|].
    destruct (decide (waiter s' = Returned)) as [Hr|Hr]; [by left|right].
    by apply progress.
  - apply (returns_within 7); [done | done |]. by apply rank_not_pending.
Qed.

Lemma fired_first_reachable : reachable fired_first.
Proof.
  apply (run_reachable
           [future_complete; callback_lock; callback_notify_all; callback_unlock]
           init); [constructor|reflexivity].
Qed.

(** The callback first, then the wait: three steps, none of them a wait on
    the condition variable. *)
Example callback_then_wait :
  run [await_lock; await_test; await_unlock] fired_first =
  Some {| future_status := kFutureStatusComplete; mutex_ := None;
          waiter := Returned; completion := Fired |}.
Proof. reflexivity. Qed.

(** The handle completes after the predicate was found false and before
    the callback can lock: the waiter is blocked by then, and is woken. *)
Example wait_then_callback :
  run [await_lock; await_test; future_complete; callback_lock;
       callback_notify_all; callback_unlock; await_relock; await_test;
       await_unlock] init =
  Some {| future_status := kFutureStatusComplete; mutex_ := None;
          waiter := Returned; completion := Fired |}.
Proof. reflexivity. Qed.

(** While the waiter holds the mutex the callback cannot notify. *)
Example callback_waits_for_mutex :
  run [await_lock; future_complete; callback_lock] init = None.
Proof. reflexivity. Qed.

Lemma AwaitInvoked_returns_witness :
  (forall actions s', run actions fired_first = Some s' ->
     (length actions <= 7)%nat /\
     (waiter fired_first <> Blocked -> waiter s' <> Blocked) /\
     (waiter s' = Returned \/
      exists a s'', a <> await_wake_spurious /\ step a s' = Some s'')) /\
  (exists actions s',
     run actions fired_first = Some s' /\ waiter s' = Returned /\
     Forall (fun a => a <> await_wake_spurious) actions).
Proof.
  apply (AwaitInvoked_returns fired_first); [|by left].
  apply fired_first_reachable.
Defined.

End AdapterProperties.

(** ** The flag-configurable variant *)

(** On the argument lists [ParseOperations] accepts, [ParseArguments]
    returns the same vector, with neither override set. *)
Lemma ParseArguments_loop_no_flags tokens a :
  Forall (fun t => t = "read" \/ t = "write") tokens ->
  Flags.ParseArguments_loop tokens a false false =
  Return ({| Flags.operations := Flags.operations a ++ (Operation_of_name <$> tokens);
             Flags.key := Flags.key a; Flags.key_valid := Flags.key_valid a;
             Flags.value := Flags.value a;
             Flags.value_valid := Flags.value_valid a |}, false, false).
Proof.
  intros Hall. revert a.
  induction Hall as [|t tokens Ht _ IH]; intros a; simpl.
  - rewrite app_nil_r. by destruct a.
  - destruct Ht as [-> | ->]; simpl; rewrite IH; simpl;
      by rewrite <- app_assoc.
Qed.

(** What the two parsers return on a list of [read] and [write]. *)
Lemma ParseArguments_plain prog tokens :
  tokens <> [] ->
  Forall (fun t => t = "read" \/ t = "write") tokens ->
  Flags.ParseArguments (prog :: tokens) =
    Return {| Flags.operations := Operation_of_name <$> tokens;
              Flags.key := EmptyString; Flags.key_valid := false;
              Flags.value := EmptyString; Flags.value_valid := false |} /\
  ParseOperations (prog :: tokens) = Return (Operation_of_name <$> tokens).
Proof.
  intros Hne Hall. unfold Flags.ParseArguments.
  change (drop 1 (prog :: tokens)) with tokens.
  rewrite (ParseArguments_loop_no_flags _ _ Hall). simpl.
  rewrite length_fmap. destruct tokens as [|t tokens]; [done|]. simpl.
  split; [reflexivity|].
  by rewrite ParseOperations_cons, (find_offending_None _ Hall).
Qed.

(** A flag takes the next word, whatever it is, and the last payload given
    is the one kept.  The dispatch reads key and value off the parsed
    arguments, so they are the same for every write of the run, the ones
    that stand before the flag included. *)
Example ParseArguments_flags :
  Flags.ParseArguments
    ["app"; "write"; "--key"; "A"; "--value"; "1"; "write"; "--key"; "read"; "read"] =
  Return {| Flags.operations := [kWrite; kWrite; kRead];
            Flags.key := "read"; Flags.key_valid := true;
            Flags.value := "1"; Flags.value_valid := true |}.
Proof. reflexivity. Qed.

Example ParseArguments_flags_writes :
  forall args,
    Flags.ParseArguments ["app"; "write"; "--key"; "A"; "write"] = Return args ->
    Flags.operations args = [kWrite; kWrite] /\
    Flags.write_key args = "A" /\ Flags.write_value args = "TestValue".
Proof. intros args [= <-]. repeat split. Qed.

Example ParseArguments_flag_without_payload :
  Flags.ParseArguments ["app"; "read"; "--key"] = Throw (Flags.expected_after "--key").
Proof. reflexivity. Qed.

(** * The program at work *)

(** The situation the test app was written for: a read as the first
    operation fails and the next one goes through, without the run
    stopping at the failure. *)
Example read_first :
  printed (main (sdk := Issue1154.sdk) ["app"; "read"; "read"] Issue1154.fresh) =
  [Logged [PText "Creating firebase::App"];
   Logged [PText "Creating firebase::firestore::Firestore"];
   Logged [PText "Performing "; PSize 2; PText " operations on document: ";
           PText "UnityIssue1154TestApp/TestDoc"];
   Logged [PText "*** DoRead() doc="; PText "UnityIssue1154TestApp/TestDoc"];
   Issued (ReqGet "UnityIssue1154TestApp/TestDoc" kServer);
   Logged [PText "DocumentReference.Get()"; PText " start"];
   Awaited;
   Logged [PText "DocumentReference.Get()"; PText " FAILED: ";
           PText "kErrorUnavailable"; PText " ";
           PText "Failed to get document from server."];
   Logged [PText "Document # key/value pairs: "; PSize 0];
   Logged [PText "*** DoRead() doc="; PText "UnityIssue1154TestApp/TestDoc"];
   Issued (ReqGet "UnityIssue1154TestApp/TestDoc" kServer);
   Logged [PText "DocumentReference.Get()"; PText " start"];
   Awaited;
   Logged [PText "DocumentReference.Get()"; PText " done"];
   Logged [PText "Document # key/value pairs: "; PSize 0]].
Proof. vm_compute. reflexivity. Qed.

(** A write first, and the read that follows finds the field. *)
Example write_first :
  lines (printed (main (sdk := Issue1154.sdk) ["app"; "write"; "read"] Issue1154.fresh)) =
  [[PText "Creating firebase::App"];
   [PText "Creating firebase::firestore::Firestore"];
   [PText "Performing "; PSize 2; PText " operations on document: ";
    PText "UnityIssue1154TestApp/TestDoc"];
   [PText "*** DoWrite() doc="; PText "UnityIssue1154TestApp/TestDoc"];
   [PText "DocumentReference.Set()"; PText " start"];
   [PText "DocumentReference.Set()"; PText " done"];
   [PText "*** DoRead() doc="; PText "UnityIssue1154TestApp/TestDoc"];
   [PText "DocumentReference.Get()"; PText " start"];
   [PText "DocumentReference.Get()"; PText " done"];
   [PText "Document # key/value pairs: "; PSize 1];
   [PText "Entry #"; PInt 1; PText ": "; PText "meaning"; PText "=";
    PField (Integer (Sdk := Issue1154.sdk) 42)]].
Proof. vm_compute. reflexivity. Qed.

(** On handles that stay pending the process does not exit: it is blocked
    in the wait of the first operation, and the second is never issued. *)
Example never_exits :
  let x := main (sdk := Stalled.sdk) ["app"; "write"; "read"] tt in
  value x = None /\
  issued (printed x) =
  [ReqSet "UnityIssue1154TestApp/TestDoc" {["meaning" := Integer (Sdk := Stalled.sdk) 42]}] /\
  awaited (printed x) = 0%nat.
Proof. vm_compute. repeat split. Qed.

(** The [default:] label of the dispatch is live code: a value of the
    enumeration's underlying type other than the two enumerators takes it. *)
Example default_label :
  let x := main_loop (sdk := Issue1154.sdk)
             (Document "UnityIssue1154TestApp/TestDoc") [2] Issue1154.fresh in
  value x = Some (Some 1) /\
  printed x =
  [Logged [PText "INTERNAL ERROR: unknown value for operation: "; PInt 2]].
Proof. split; reflexivity. Qed.

Lemma Issue1154_always_settles : always_settles (sdk := Issue1154.sdk).
Proof.
  split.
  - intros path source r. simpl. unfold Issue1154.get.
    by destruct (Issue1154.connected r).
  - intros path map r. done.
Qed.

Lemma Issue1154_error_value_inj a b :
  Issue1154.error_value a = Issue1154.error_value b -> a = b.
Proof. destruct a, b; simpl; intros H; first [reflexivity | discriminate H]. Qed.

(** ** Instances of the theorems *)

(** C1: the parser stops at the first word that is neither [read] nor
    [write], so a later such word is not the one its message names; and a
    flag is such a word, so what follows a flag and its payload is not
    named either.  (The parser that knows the flags names it.) *)
Lemma later_word_counterexample :
  "bar" ∈ ["foo"; "bar"] /\ "bar" <> "read" /\ "bar" <> "write" /\
  ParseOperations ["app"; "foo"; "bar"] = Throw (invalid_argument "foo") /\
  String.index 0 "bar" (what (invalid_argument "foo")) = None /\
  ParseOperations ["app"; "--key"; "K"; "bogus"] = Throw (invalid_argument "--key") /\
  String.index 0 "bogus" (what (invalid_argument "--key")) = None /\
  Flags.ParseArguments ["app"; "--key"; "K"; "bogus"] = Throw (invalid_argument "bogus").
Proof.
  split; [apply elem_of_cons; right; apply list_elem_of_here|].
  repeat split; done.
Qed.

(** C2: the flags of the specification are invalid arguments to this
    parser. *)
Lemma flags_counterexample :
  ParseOperations ["app"; "--key"; "K"; "--value"; "V"; "write"]
  = Throw (invalid_argument "--key") /\
  value (main (sdk := Issue1154.sdk) ["app"; "--key"; "K"; "--value"; "V"; "write"]
           Issue1154.fresh) = Some 2 /\
  issued (printed (main (sdk := Issue1154.sdk)
                     ["app"; "--key"; "K"; "--value"; "V"; "write"]
                     Issue1154.fresh)) = [].
Proof. repeat split. Qed.

Lemma flags_are_invalid_arguments_witness :
  exists bad before after,
    ["--key"; "K"; "write"] = before ++ bad :: after /\
    Forall (fun t => t = "read" \/ t = "write") before /\
    bad <> "read" /\ bad <> "write" /\
    ParseOperations ["app"; "--key"; "K"; "write"] = Throw (invalid_argument bad) /\
    value (main (sdk := Issue1154.sdk) ["app"; "--key"; "K"; "write"] Issue1154.fresh)
    = Some 2 /\
    issued (printed (main (sdk := Issue1154.sdk) ["app"; "--key"; "K"; "write"]
                       Issue1154.fresh)) = [].
Proof.
  apply (proj1 (flags_are_invalid_arguments (sdk := Issue1154.sdk)
                  ["app"; "--key"; "K"; "write"] Issue1154.fresh)).
  left. apply elem_of_cons. by left.
Defined.

(** C3: after a read that failed, the line with the number of fields is
    printed all the same. *)
Lemma DoRead_failed_counterexample :
  error (base (DocumentReference_Get (Sdk := Issue1154.sdk)
                 "UnityIssue1154TestApp/TestDoc" kServer Issue1154.fresh).1)
  <> Error_value (Sdk := Issue1154.sdk) kErrorOk /\
  lines (printed (DoRead (sdk := Issue1154.sdk)
                    (Document "UnityIssue1154TestApp/TestDoc") Issue1154.fresh)) =
  [[PText "*** DoRead() doc="; PText "UnityIssue1154TestApp/TestDoc"];
   [PText "DocumentReference.Get()"; PText " start"];
   [PText "DocumentReference.Get()"; PText " FAILED: "; PText "kErrorUnavailable";
    PText " "; PText "Failed to get document from server."];
   [PText "Document # key/value pairs: "; PSize 0]].
Proof. split; [done|]. vm_compute. reflexivity. Qed.

(** C3: a record of three fields, which the collaborator hands out in the
    order [c], [b], [a]. *)
Lemma DoRead_log_witness :
  lines (printed (DoRead (sdk := Issue1154.sdk)
                    (Document "UnityIssue1154TestApp/TestDoc") Issue1154.three_fields)) =
  [[PText "*** DoRead() doc="; PText "UnityIssue1154TestApp/TestDoc"];
   [PText "DocumentReference.Get()"; PText " start"];
   [PText "DocumentReference.Get()"; PText " done"];
   [PText "Document # key/value pairs: "; PSize 3];
   [PText "Entry #"; PInt 1; PText ": "; PText "c"; PText "=";
    PField (Integer (Sdk := Issue1154.sdk) 3)];
   [PText "Entry #"; PInt 2; PText ": "; PText "b"; PText "=";
    PField (Integer (Sdk := Issue1154.sdk) 2)];
   [PText "Entry #"; PInt 3; PText ": "; PText "a"; PText "=";
    PField (Integer (Sdk := Issue1154.sdk) 1)]].
Proof.
  destruct (DoRead_log (sdk := Issue1154.sdk)
              (Document "UnityIssue1154TestApp/TestDoc") Issue1154.three_fields)
    as [H _]; [done|].
  rewrite H. vm_compute. reflexivity.
Defined.

(** C4 *)
Lemma main_exit_status_witness :
  value (main (sdk := Issue1154.sdk) ["app"; "read"; "bogus"] Issue1154.fresh) = Some 2 /\
  value (main (sdk := Issue1154.sdk) ["app"; "read"] Issue1154.unconfigured) = Some 1 /\
  value (main (sdk := Issue1154.sdk) ["app"; "read"; "write"] Issue1154.fresh) = Some 0.
Proof.
  split; [|split].
  - destruct (main_exit_status (sdk := Issue1154.sdk) ["app"; "read"; "bogus"]
                Issue1154.fresh) as (H & _).
    by apply (H (invalid_argument "bogus")).
  - destruct (main_exit_status (sdk := Issue1154.sdk) ["app"; "read"]
                Issue1154.unconfigured) as (_ & H & _).
    apply (H [kRead]); [done|by left].
  - destruct (main_exit_status (sdk := Issue1154.sdk) ["app"; "read"; "write"]
                Issue1154.fresh) as (_ & _ & _ & H & _).
    apply (H [kRead; kWrite]); [done | done | done |].
    apply Issue1154_always_settles.
Defined.

(** C7 *)
Lemma FirestoreErrorNameFromErrorCode_total_witness :
  FirestoreErrorNameFromErrorCode (sdk := Issue1154.sdk) 14 = "kErrorUnavailable" /\
  FirestoreErrorNameFromErrorCode (sdk := Issue1154.sdk) 17 = "17" /\
  FirestoreErrorNameFromErrorCode (sdk := Issue1154.sdk) (-1) = "-1" /\
  FirestoreErrorNameFromErrorCode (sdk := Issue1154.sdk) 2147483647 <> EmptyString.
Proof.
  pose proof (FirestoreErrorNameFromErrorCode_total (sdk := Issue1154.sdk)
                Issue1154_error_value_inj) as H.
  split; [|split; [|split]].
  - destruct (H 14) as (_ & Hnamed & _). by apply (Hnamed kErrorUnavailable).
  - destruct (H 17) as (_ & _ & Hother). rewrite Hother; [done|].
    intros e. by destruct e.
  - destruct (H (-1)) as (_ & _ & Hother). rewrite Hother; [done|].
    intros e. by destruct e.
  - by destruct (H 2147483647) as (Hne & _).
Defined.

(** C8: a run whose first read fails, and goes on; and a run on handles
    that stay pending, which stops at the first. *)
Lemma operations_run_in_order_witness :
  (error (handle_of (sdk := Issue1154.sdk) (Document "UnityIssue1154TestApp/TestDoc")
            Issue1154.fresh kRead)
   <> Error_value (Sdk := Issue1154.sdk) kErrorOk /\
   exists setup body,
     printed (main (sdk := Issue1154.sdk) ["app"; "read"; "write"; "read"]
                Issue1154.fresh)
     = setup ++ Logged (performing_line [kRead; kWrite; kRead]) :: body /\
     issued setup = [] /\
     Request_operation <$> issued body = [kRead; kWrite; kRead] /\
     awaited body = 3%nat /\
     one_at_a_time false body = Some false /\
     value (main (sdk := Issue1154.sdk) ["app"; "read"; "write"; "read"]
              Issue1154.fresh) = Some 0) /\
  (exists setup body,
     printed (main (sdk := Stalled.sdk) ["app"; "write"; "read"] tt)
     = setup ++ Logged (performing_line [kWrite; kRead]) :: body /\
     issued setup = [] /\
     Request_operation <$> issued body = [kWrite] /\
     awaited body = 0%nat /\
     value (main (sdk := Stalled.sdk) ["app"; "write"; "read"] tt) = None).
Proof.
  split.
  - split; [done|].
    destruct (operations_run_in_order (sdk := Issue1154.sdk)
                ["app"; "read"; "write"; "read"] [kRead; kWrite; kRead]
                Issue1154.fresh eq_refl eq_refl eq_refl)
      as (setup & body & n & Hp & Hs & Hn & Hi & _ & Hcase).
    exists setup, body. split; [exact Hp|]. split; [exact Hs|].
    destruct Hcase as [(_ & -> & Ha & Hone & Hv)
                      | (i & future & Hi' & Hpending & _)].
    + rewrite Hi. repeat split; done.
    + destruct i as [|[|[|i]]]; simplify_eq/=; done.
  - destruct (operations_run_in_order (sdk := Stalled.sdk)
                ["app"; "write"; "read"] [kWrite; kRead] tt eq_refl eq_refl eq_refl)
      as (setup & body & n & Hp & Hs & Hn & Hi & _ & Hcase).
    exists setup, body. split; [exact Hp|]. split; [exact Hs|].
    destruct Hcase as [(Hall & _)
                      | (i & future & Hi' & Hpending & Hbefore & -> & Ha & Hone & Hv)].
    + apply Forall_cons in Hall as [Hsettled _]. by destruct Hsettled.
    + destruct i as [|i].
      * rewrite Hi. repeat split; done.
      * apply Forall_cons in Hbefore as [Hsettled _]. by destruct Hsettled.
Defined.

(** C9 *)
Lemma writes_set_meaning_42_witness :
  ReqSet (sdk := Issue1154.sdk) "UnityIssue1154TestApp/TestDoc" {["meaning" := 42]}
  ∈ issued (printed (main (sdk := Issue1154.sdk) ["app"; "write"] Issue1154.fresh)) /\
  size ({["meaning" := 42]} : gmap string Z) = 1%nat.
Proof.
  assert (H : ReqSet (sdk := Issue1154.sdk) "UnityIssue1154TestApp/TestDoc"
                {["meaning" := 42]}
              ∈ issued (printed (main (sdk := Issue1154.sdk) ["app"; "write"]
                                   Issue1154.fresh))).
  { vm_compute. apply list_elem_of_here. }
  split; [exact H|].
  by destruct (writes_set_meaning_42 (sdk := Issue1154.sdk) _ _ _ _ H) as (_ & _ & Hsize & _).
Defined.

(** C10 *)
Lemma default_label_unreachable_witness :
  Forall (fun op => op = kRead \/ op = kWrite) [kWrite; kRead] /\
  Logged (sdk := Issue1154.sdk) (internal_error_line 0)
  ∉ printed (main (sdk := Issue1154.sdk) ["app"; "write"; "read"] Issue1154.fresh).
Proof.
  destruct (default_label_unreachable (sdk := Issue1154.sdk) ["app"; "write"; "read"]
              Issue1154.fresh) as (Htags & Hline & _).
  split; [|apply Hline].
  by apply (Htags [kWrite; kRead]).
Defined.

(** * Further properties *)

(** ** [ParseOperations] *)

Lemma find_offending_app a b :
  List.find (fun t => negb (is_operation_name t)) (a ++ b) =
  match List.find (fun t => negb (is_operation_name t)) a with
  | Some bad => Some bad
  | None => List.find (fun t => negb (is_operation_name t)) b
  end.
Proof.
  induction a as [|t a IH]; simpl; [done|].
  by destruct (negb (is_operation_name t)).
Qed.

Lemma find_offending_None_inv tokens :
  List.find (fun t => negb (is_operation_name t)) tokens = None ->
  Forall (fun t => t = "read" \/ t = "write") tokens.
Proof.
  induction tokens as [|t tokens IH]; simpl; [constructor|].
  destruct (is_operation_name t) eqn:Ht; simpl; [|done].
  intros H. constructor; [by apply is_operation_name_true|by apply IH].
Qed.

(** X1. Parsing goes word by word: when two argument lists are both
    accepted, so is the one followed by the other, and the vector is the
    one followed by the other; and when a non-empty argument list is
    rejected, it is rejected with the same exception whatever words
    follow it. *)
Theorem ParseOperations_app (prog : string) (a b : list string) :
  (forall x y,
     ParseOperations (prog :: a) = Return x ->
     ParseOperations (prog :: b) = Return y ->
     ParseOperations (prog :: a ++ b) = Return (x ++ y)) /\
  (forall e,
     a <> [] ->
     ParseOperations (prog :: a) = Throw e ->
     ParseOperations (prog :: a ++ b) = Throw e).
Proof.
  rewrite !ParseOperations_cons, find_offending_app. split.
  - intros x y.
    destruct (List.find _ a); [done|]. destruct (List.find _ b); [done|].
    destruct a as [|t a]; [done|]. destruct b as [|u b]; [done|].
    simpl. intros [= <-] [= <-]. by rewrite fmap_app.
  - intros e Hne. destruct (List.find _ a); [done|].
    by destruct a.
Qed.

Lemma ParseOperations_app_witness :
  ParseOperations ["app"; "read"; "write"; "write"] = Return ([kRead] ++ [kWrite; kWrite]) /\
  ParseOperations ["app"; "read"; "reed"; "write"] = Throw (invalid_argument "reed").
Proof.
  split.
  - apply (proj1 (ParseOperations_app "app" ["read"] ["write"; "write"])); reflexivity.
  - apply (proj2 (ParseOperations_app "app" ["read"; "reed"] ["write"]));
      [done|reflexivity].
Defined.

(** X2. The parser loses nothing: the vector [ParseOperations] returns
    gives back the words it was parsed from, and every non-empty vector of
    the two enumerators is what the parser returns on the words of its
    elements. *)
Theorem ParseOperations_round_trip (prog : string) :
  (forall tokens operations,
     ParseOperations (prog :: tokens) = Return operations ->
     Operation_name <$> operations = tokens) /\
  (forall operations,
     operations <> [] ->
     Forall (fun op => op = kRead \/ op = kWrite) operations ->
     ParseOperations (prog :: (Operation_name <$> operations)) = Return operations).
Proof.
  split.
  - intros tokens operations. rewrite ParseOperations_cons.
    destruct (List.find _ tokens) eqn:Hf; [done|].
    destruct (Nat.eqb _ 0); [done|]. intros [= <-].
    apply find_offending_None_inv in Hf. clear -Hf.
    induction Hf as [|t tokens Ht _ IH]; csimpl; [done|].
    rewrite IH. by destruct Ht as [-> | ->].
  - intros operations Hne Htags. rewrite ParseOperations_cons.
    assert (Hall : Forall (fun t => t = "read" \/ t = "write")
                     (Operation_name <$> operations)).
    { apply Forall_fmap. eapply Forall_impl; [exact Htags|].
      intros op [-> | ->]; simpl; auto. }
    rewrite (find_offending_None _ Hall), length_fmap.
    destruct operations as [|op operations]; [done|]. simpl Nat.eqb. cbv iota.
    f_equal. clear -Htags.
    induction Htags as [|op' ops Hop _ IH]; csimpl; [done|].
    rewrite IH. by destruct Hop as [-> | ->].
Qed.

Lemma ParseOperations_round_trip_witness :
  Operation_name <$> [kWrite; kRead] = ["write"; "read"] /\
  ParseOperations ("app" :: (Operation_name <$> [kRead; kRead; kWrite]))
  = Return [kRead; kRead; kWrite].
Proof.
  destruct (ParseOperations_round_trip "app") as [Hback Hforth]. split.
  - by apply Hback.
  - apply Hforth; [done|]. repeat (apply Forall_cons_2; [auto|]). apply Forall_nil_2.
Defined.

(** ** [FirestoreErrorNameFromErrorCode] *)

Section ErrorNames.
Context {sdk : Sdk}.
Hypothesis Error_value_inj : forall a b, Error_value a = Error_value b -> a = b.

Lemma name_of_enumerator e :
  FirestoreErrorNameFromErrorCode (Error_value e) = Error_name e.
Proof using Error_value_inj.
  assert (Hne : forall a b, a <> b -> (Error_value a =? Error_value b) = false).
  { intros a b Hab. apply Z.eqb_neq. intros H. by apply Hab, Error_value_inj. }
  unfold FirestoreErrorNameFromErrorCode.
  destruct e; repeat (rewrite Hne by discriminate); by rewrite Z.eqb_refl.
Qed.

Lemma name_of_other error :
  (forall e, error <> Error_value e) ->
  FirestoreErrorNameFromErrorCode error = to_string error.
Proof.
  intros Hoth. unfold FirestoreErrorNameFromErrorCode.
  repeat match goal with
         | |- context [error =? Error_value ?e] =>
             destruct (Z.eqb_spec error (Error_value e)) as [Heq|_];
             [by apply Hoth in Heq|]
         end.
  done.
Qed.

Lemma enumerator_or_other error :
  (exists e, error = Error_value e) \/ (forall e, error <> Error_value e).
Proof.
  destruct (decide (Exists (fun e => error = Error_value e)
              [kErrorOk; kErrorCancelled; kErrorUnknown; kErrorInvalidArgument;
               kErrorDeadlineExceeded; kErrorNotFound; kErrorAlreadyExists;
               kErrorPermissionDenied; kErrorResourceExhausted;
               kErrorFailedPrecondition; kErrorAborted; kErrorOutOfRange;
               kErrorUnimplemented; kErrorInternal; kErrorUnavailable;
               kErrorDataLoss; kErrorUnauthenticated])) as [H|H].
  - left. apply Exists_exists in H as (e & _ & He). by exists e.
  - right. intros e He. apply H, Exists_exists. exists e. split; [|done].
    destruct e; set_solver.
Qed.

Lemma Error_name_inj a b : Error_name a = Error_name b -> a = b.
Proof. destruct a, b; simpl; intros H; first [reflexivity | discriminate H]. Qed.

(** No decimal rendering is the name of an enumerator. *)
Lemma to_string_not_a_name n e : to_string n <> Error_name e.
Proof.
  intros H. destruct (to_string_decimal n) as [Hn _]. rewrite H in Hn.
  destruct e; discriminate Hn.
Qed.

Lemma to_string_inj m n : to_string m = to_string n -> m = n.
Proof.
  intros H.
  destruct (to_string_decimal m) as [Hm Hm'], (to_string_decimal n) as [Hn Hn'].
  rewrite H, Hn in Hm. congruence.
Qed.

(** X3. With the enumerators of [Error] pairwise distinct, the name tells
    the code: [FirestoreErrorNameFromErrorCode] returns different strings
    on different integers, so the [FAILED] line of a log identifies the
    error code that was returned. *)
Theorem FirestoreErrorNameFromErrorCode_inj (m n : Z) :
  FirestoreErrorNameFromErrorCode m = FirestoreErrorNameFromErrorCode n -> m = n.
Proof using Error_value_inj.
  destruct (enumerator_or_other m) as [[a ->]|Hm],
           (enumerator_or_other n) as [[b ->]|Hn].
  - rewrite !name_of_enumerator. by intros ->%Error_name_inj.
  - rewrite name_of_enumerator, (name_of_other n Hn).
    intros H. symmetry in H. by apply to_string_not_a_name in H.
  - rewrite name_of_enumerator, (name_of_other m Hm).
    intros H. by apply to_string_not_a_name in H.
  - rewrite (name_of_other m Hm), (name_of_other n Hn). apply to_string_inj.
Qed.

End ErrorNames.

Lemma FirestoreErrorNameFromErrorCode_inj_witness :
  FirestoreErrorNameFromErrorCode (sdk := Issue1154.sdk) 4 = "kErrorDeadlineExceeded" /\
  4 = Issue1154.error_value kErrorDeadlineExceeded.
Proof.
  split; [reflexivity|].
  apply (FirestoreErrorNameFromErrorCode_inj (sdk := Issue1154.sdk)
           Issue1154_error_value_inj).
  reflexivity.
Defined.

(** ** The runner of [main.cc] *)

Section MoreProperties.
Context {sdk : Sdk}.

(** X4. Running a vector that is one vector followed by another is running
    the first and then, from the state it leaves the collaborator in, the
    second: the traces follow one another.  When the first does not run
    off its end (it is blocked, or took the [default:] label), the second
    is not started at all. *)
Theorem main_loop_app (doc : DocumentReference) (a b : list Operation) (r : Remote) :
  main_loop doc (a ++ b) r =
  match value (main_loop doc a r) with
  | Some None =>
      {| value := value (main_loop doc b (remote (main_loop doc a r)));
         printed := printed (main_loop doc a r)
                    ++ printed (main_loop doc b (remote (main_loop doc a r)));
         remote := remote (main_loop doc b (remote (main_loop doc a r))) |}
  | _ => main_loop doc a r
  end.
Proof.
  revert r. induction a as [|operation a IH]; intros r.
  { simpl. by destruct (main_loop doc b r). }
  assert (Hbind : forall (step : Prog unit),
    bind step (fun _ => main_loop doc (a ++ b)) r =
    match value (bind step (fun _ => main_loop doc a) r) with
    | Some None =>
        {| value := value (main_loop doc b (remote (bind step (fun _ => main_loop doc a) r)));
           printed := printed (bind step (fun _ => main_loop doc a) r)
                      ++ printed (main_loop doc b (remote (bind step (fun _ => main_loop doc a) r)));
           remote := remote (main_loop doc b (remote (bind step (fun _ => main_loop doc a) r))) |}
    | _ => bind step (fun _ => main_loop doc a) r
    end).
  { intros step. unfold bind. destruct (value (step r)) as [[]|]; [|done].
    rewrite IH. cbn [value printed remote].
    destruct (value (main_loop doc a (remote (step r)))) as [[code|]|] eqn:Hv;
      cbn [value printed remote].
    - by rewrite Hv.
    - by rewrite app_assoc.
    - by rewrite Hv. }
  change (main_loop doc ((operation :: a) ++ b) r)
    with (main_loop doc (operation :: a ++ b) r).
  cbn [main_loop].
  destruct (operation =? kRead); [apply Hbind|].
  destruct (operation =? kWrite); [apply Hbind|].
  reflexivity.
Qed.

Lemma DoRead_remote doc r :
  remote (DoRead doc r) = after_operation doc r kRead.
Proof. rewrite DoRead_run. by destruct (status _). Qed.

Lemma DoWrite_remote doc r :
  remote (DoWrite doc r) = after_operation doc r kWrite.
Proof. rewrite DoWrite_run. by destruct (status _). Qed.

Lemma main_loop_remote doc operations r :
  Forall (fun op => op = kRead \/ op = kWrite) operations ->
  remote (main_loop doc operations r) =
  foldl (after_operation doc) r
    (take (length (issued (printed (main_loop doc operations r)))) operations).
Proof.
  intros Htags. revert r.
  induction Htags as [|operation operations Hop _ IH]; intros r; [done|].
  assert (Hstep : exists step : Prog unit,
             one_operation (request_of doc operation) (step r) /\
             remote (step r) = after_operation doc r operation /\
             main_loop doc (operation :: operations) r =
             bind step (fun _ => main_loop doc operations) r).
  { destruct Hop as [-> | ->].
    - exists (DoRead doc).
      split; [apply DoRead_one_operation|]. split; [apply DoRead_remote|done].
    - exists (DoWrite doc).
      split; [apply DoWrite_one_operation|]. split; [apply DoWrite_remote|done]. }
  destruct Hstep as (step & (Hq & _ & Hrun) & Hr & ->).
  destruct Hrun as [(Hv & _) | (Hv & _)].
  - rewrite (bind_Some _ _ _ _ Hv). cbn [value printed remote].
    rewrite issued_app, length_app, Hq. simpl. by rewrite IH, Hr.
  - rewrite (bind_None _ _ _ Hv). cbn [value printed remote].
    rewrite Hq. simpl. by rewrite Hr.
Qed.

(** X5. What a run of [main] does to the collaborator is what its requests
    do, one after the other: past the setup, the state [main] leaves is
    the state after the calls of the operations whose requests were
    issued, in the order of the vector; printing and waiting change
    nothing.  When every handle settles these are all the operations. *)
Theorem main_remote (argv : list string) (operations : list Operation) (r : Remote) :
  ParseOperations argv = Return operations ->
  (App_Create r).1 = true ->
  (Firestore_GetInstance (App_Create r).2).1 = true ->
  remote (main argv r) =
    foldl (after_operation (Document "UnityIssue1154TestApp/TestDoc"))
      (Firestore_GetInstance (App_Create r).2).2
      (take (length (issued (printed (main argv r)))) operations) /\
  (always_settles ->
   remote (main argv r) =
     foldl (after_operation (Document "UnityIssue1154TestApp/TestDoc"))
       (Firestore_GetInstance (App_Create r).2).2 operations).
Proof.
  intros Hparse Happ Hfs.
  pose proof (ParseOperations_tags _ _ Hparse) as Htags.
  assert (Hgen : remote (main argv r) =
    foldl (after_operation (Document "UnityIssue1154TestApp/TestDoc"))
      (Firestore_GetInstance (App_Create r).2).2
      (take (length (issued (printed (main argv r)))) operations)).
  { rewrite main_run, Hparse. cbv zeta. rewrite Happ, Hfs.
    cbn [value printed remote]. rewrite issued_app. simpl.
    by apply main_loop_remote. }
  split; [exact Hgen|]. intros Hsettles. rewrite Hgen. f_equal.
  apply take_ge.
  destruct (main_operations argv operations r Hparse Happ Hfs)
    as (body & n & Hp & _ & Hi & _ & Hcase).
  pose proof (main_settles argv operations r Hparse Happ Hfs Hsettles) as Hexit.
  destruct Hcase as [(_ & -> & _) | (Hv & _)]; [|congruence].
  rewrite Hp, issued_app, Hi, take_ge by done. simpl. by rewrite length_fmap.
Qed.

(** X6. [main] stops before it has asked the collaborator for anything it
    does not need: on a usage error it prints the one line with the text
    of the exception and leaves the collaborator as it found it; when
    [App::Create] fails it does not go on to [Firestore::GetInstance]; and
    when either fails no request is issued. *)
Theorem main_stops_early (argv : list string) (r : Remote) :
  (forall e, ParseOperations argv = Throw e ->
     printed (main argv r) =
       [Logged [PText "ERROR: Invalid command-line arguments: "; PText (what e)]] /\
     remote (main argv r) = r) /\
  (forall operations, ParseOperations argv = Return operations ->
     (App_Create r).1 = false ->
     printed (main argv r) =
       [Logged [PText "Creating firebase::App"];
        Logged [PText "ERROR: Creating firebase::App FAILED!"]] /\
     remote (main argv r) = (App_Create r).2) /\
  (forall operations, ParseOperations argv = Return operations ->
     (App_Create r).1 = true ->
     (Firestore_GetInstance (App_Create r).2).1 = false ->
     printed (main argv r) =
       [Logged [PText "Creating firebase::App"];
        Logged [PText "Creating firebase::firestore::Firestore"];
        Logged [PText "ERROR: Creating firebase::firestore::Firestore FAILED!"]] /\
     remote (main argv r) = (Firestore_GetInstance (App_Create r).2).2).
Proof.
  rewrite main_run. split; [|split].
  - by intros e ->.
  - intros operations -> Happ. cbv zeta. by rewrite Happ.
  - intros operations -> Happ Hfs. cbv zeta. by rewrite Happ, Hfs.
Qed.

(** X7. For every write whose handle settles, [DoWrite] issues the one
    request, for the single field [meaning], waits for it, and prints its
    heading, the [start] line and then [done] when the error code is
    [kErrorOk] and otherwise the [FAILED] line with the name of the code
    and the message: nothing else, and nothing of what was written. *)
Theorem DoWrite_log (doc : DocumentReference) (r : Remote) :
  let future :=
    (DocumentReference_Set (path doc) {["meaning" := Integer 42]} r).1 in
  status future <> kFutureStatusPending ->
  printed (DoWrite doc r) =
    [Logged [PText "*** DoWrite() doc="; PText (path doc)];
     Issued (ReqSet (path doc) {["meaning" := Integer 42]});
     Logged [PText "DocumentReference.Set()"; PText " start"];
     Awaited;
     Logged (if error future =? Error_value kErrorOk then
               [PText "DocumentReference.Set()"; PText " done"]
             else
               [PText "DocumentReference.Set()"; PText " FAILED: ";
                PText (FirestoreErrorNameFromErrorCode (error future));
                PText " "; PText (error_message future)])] /\
  value (DoWrite doc r) = Some tt.
Proof.
  intros future Hsettled. rewrite DoWrite_run. fold future.
  by destruct (status future).
Qed.

(** X8. Every read [main] issues is a read of the document
    [UnityIssue1154TestApp/TestDoc] from the server, never from the cache;
    and every request it issues at all is such a read or a write to that
    document. *)
Theorem reads_ask_the_server (argv : list string) (r : Remote) :
  (forall path source,
     ReqGet path source ∈ issued (printed (main argv r)) ->
     path = "UnityIssue1154TestApp/TestDoc" /\ source = kServer) /\
  (forall q, q ∈ issued (printed (main argv r)) ->
     match q with
     | ReqGet path _ | ReqSet path _ => path = "UnityIssue1154TestApp/TestDoc"
     end).
Proof.
  split.
  - intros path source [H|H]%main_issued; [|done]. by injection H as -> ->.
  - intros q [-> | ->]%main_issued; done.
Qed.

End MoreProperties.

Lemma main_remote_witness :
  remote (main (sdk := Issue1154.sdk) ["app"; "read"; "write"] Issue1154.fresh)
  = Issue1154.written.
Proof.
  destruct (main_remote (sdk := Issue1154.sdk) ["app"; "read"; "write"]
              [kRead; kWrite] Issue1154.fresh) as [_ H]; [done | done | done |].
  rewrite H; [reflexivity|]. apply Issue1154_always_settles.
Defined.

Lemma main_stops_early_witness :
  remote (main (sdk := Issue1154.sdk) ["app"; "write"; "--help"] Issue1154.fresh)
  = Issue1154.fresh /\
  printed (main (sdk := Issue1154.sdk) ["app"; "write"] Issue1154.unconfigured)
  = [Logged [PText "Creating firebase::App"];
     Logged [PText "ERROR: Creating firebase::App FAILED!"]].
Proof.
  split.
  - destruct (main_stops_early (sdk := Issue1154.sdk) ["app"; "write"; "--help"]
                Issue1154.fresh) as (H & _).
    by destruct (H (invalid_argument "--help")) as [_ Hr].
  - destruct (main_stops_early (sdk := Issue1154.sdk) ["app"; "write"]
                Issue1154.unconfigured) as (_ & H & _).
    by destruct (H [kWrite]) as [Hp _].
Defined.

Lemma DoWrite_log_witness :
  value (DoWrite (sdk := Issue1154.sdk) (Document "UnityIssue1154TestApp/TestDoc")
           Issue1154.fresh) = Some tt /\
  lines (printed (DoWrite (sdk := Issue1154.sdk)
                    (Document "UnityIssue1154TestApp/TestDoc") Issue1154.fresh)) =
  [[PText "*** DoWrite() doc="; PText "UnityIssue1154TestApp/TestDoc"];
   [PText "DocumentReference.Set()"; PText " start"];
   [PText "DocumentReference.Set()"; PText " done"]].
Proof.
  destruct (DoWrite_log (sdk := Issue1154.sdk)
              (Document "UnityIssue1154TestApp/TestDoc") Issue1154.fresh)
    as [Hp Hv]; [done|].
  split; [exact Hv|]. rewrite Hp. reflexivity.
Defined.

Lemma reads_ask_the_server_witness :
  ReqGet (sdk := Issue1154.sdk) "UnityIssue1154TestApp/TestDoc" kServer
  ∈ issued (printed (main (sdk := Issue1154.sdk) ["app"; "read"] Issue1154.fresh)) /\
  kServer = kServer.
Proof.
  assert (H : ReqGet (sdk := Issue1154.sdk) "UnityIssue1154TestApp/TestDoc" kServer
              ∈ issued (printed (main (sdk := Issue1154.sdk) ["app"; "read"]
                                   Issue1154.fresh))).
  { vm_compute. apply list_elem_of_here. }
  split; [exact H|].
  destruct (reads_ask_the_server (sdk := Issue1154.sdk) ["app"; "read"]
              Issue1154.fresh) as [Hget _].
  by destruct (Hget _ _ H) as [_ Hs].
Defined.

(** ** [AwaitableFutureCompletion]: what the wait never does *)

Section AdapterSafety.
Import Adapter.

(** X9. In every state the waiting thread and the completion callback can
    reach: [AwaitInvoked] leaves the wait, and returns, only with the
    handle no longer pending; a waiter blocked on the condition variable
    still has the notification of its handle ahead of it; the predicate is
    evaluated only with [mutex_] held by the waiting thread, and
    [notify_all] is called only with [mutex_] held by the callback. *)
Theorem AwaitInvoked_safety (s : State) :
  reachable s ->
  (waiter s = Leaving \/ waiter s = Returned ->
   pending (future_status s) = false /\ completion s <> NotCompleted) /\
  (waiter s = Blocked ->
   completion s = NotCompleted \/ completion s = Calling \/ completion s = Notifying) /\
  (waiter s = Testing -> mutex_ s = Some Main) /\
  (completion s = Notifying -> mutex_ s = Some Callback).
Proof.
  intros Hinv%invariant_reachable. revert Hinv.
  destruct s as [[] [[]|] [] []]; simpl; try discriminate; intros _.
  all: split; [intros [?|?]; done|].
  all: split; [intros ?; first [done | auto]|].
  all: split; intros ?; done.
Qed.

Lemma AwaitInvoked_safety_witness :
  run [await_lock; await_test] init =
  Some {| future_status := kFutureStatusPending; mutex_ := None;
          waiter := Blocked; completion := NotCompleted |} /\
  (NotCompleted = NotCompleted \/ NotCompleted = Calling \/ NotCompleted = Notifying).
Proof.
  split; [reflexivity|].
  assert (Hreach : reachable {| future_status := kFutureStatusPending; mutex_ := None;
                                waiter := Blocked; completion := NotCompleted |}).
  { by apply (run_reachable [await_lock; await_test] init); [constructor|]. }
  destruct (AwaitInvoked_safety _ Hreach) as (_ & Hblocked & _).
  by apply Hblocked.
Defined.

End AdapterSafety.

(** ** [ParseArguments] *)

(** The [ParsedArguments] the loop starts from. *)
Local Abbreviation no_args :=
  {| Flags.operations := []; Flags.key := EmptyString; Flags.key_valid := false;
     Flags.value := EmptyString; Flags.value_valid := false |}.

Lemma ParseArguments_cons prog tokens :
  Flags.ParseArguments (prog :: tokens) =
  match Flags.ParseArguments_loop tokens no_args false false with
  | Throw e => Throw e
  | Return (args, next_is_key, next_is_value) =>
      if next_is_key then Throw (Flags.expected_after "--key")
      else if next_is_value then Throw (Flags.expected_after "--value")
      else if Nat.eqb (length (Flags.operations args)) 0 then Throw no_arguments
      else Return args
  end.
Proof. reflexivity. Qed.

(** The loop over a list followed by another goes on, over the second,
    from where the first leaves it. *)
Lemma ParseArguments_loop_app xs ys a nk nv :
  Flags.ParseArguments_loop (xs ++ ys) a nk nv =
  match Flags.ParseArguments_loop xs a nk nv with
  | Throw e => Throw e
  | Return (a', nk', nv') => Flags.ParseArguments_loop ys a' nk' nv'
  end.
Proof.
  revert a nk nv. induction xs as [|x xs IH]; intros a nk nv; simpl; [done|].
  destruct nk; [apply IH|]. destruct nv; [apply IH|].
  destruct (String.eqb x "read"); [apply IH|].
  destruct (String.eqb x "write"); [apply IH|].
  destruct (String.eqb x "--key"); [apply IH|].
  destruct (String.eqb x "--value"); [apply IH|].
  done.
Qed.

(** The loop throws for an invalid word only. *)
Lemma ParseArguments_loop_throws tokens a nk nv e :
  Flags.ParseArguments_loop tokens a nk nv = Throw e ->
  exists arg, e = invalid_argument arg.
Proof.
  revert a nk nv. induction tokens as [|x xs IH]; intros a nk nv; simpl; [done|].
  destruct nk; [apply IH|]. destruct nv; [apply IH|].
  destruct (String.eqb x "read"); [apply IH|].
  destruct (String.eqb x "write"); [apply IH|].
  destruct (String.eqb x "--key"); [apply IH|].
  destruct (String.eqb x "--value"); [apply IH|].
  intros [= <-]. by exists x.
Qed.

(** An argument list is complete when the loop ends on it with no flag
    waiting for its payload: it is then accepted, or holds no operation. *)
Lemma ParseArguments_complete prog tokens :
  (exists args, Flags.ParseArguments (prog :: tokens) = Return args) \/
  Flags.ParseArguments (prog :: tokens) = Throw no_arguments ->
  exists args, Flags.ParseArguments_loop tokens no_args false false
               = Return (args, false, false).
Proof.
  rewrite ParseArguments_cons.
  destruct (Flags.ParseArguments_loop tokens no_args false false)
    as [e|[[args nk] nv]] eqn:Hloop.
  - intros [[args H]|H]; [done|].
    apply ParseArguments_loop_throws in Hloop as [arg ->]. discriminate H.
  - destruct nk; [intros [[? H]|H]; discriminate H|].
    destruct nv; [intros [[? H]|H]; discriminate H|].
    intros _. by exists args.
Qed.

(** X10. A flag with nothing after it is an error of its own: when an
    argument list is accepted, or is rejected only for holding no
    operation, the same list followed by [--key] is rejected with
    [Expected argument after --key], and followed by [--value] with
    [Expected argument after --value]. *)
Theorem ParseArguments_flag_at_end (prog : string) (tokens : list string) :
  (exists args, Flags.ParseArguments (prog :: tokens) = Return args) \/
  Flags.ParseArguments (prog :: tokens) = Throw no_arguments ->
  Flags.ParseArguments (prog :: tokens ++ ["--key"])
  = Throw (Flags.expected_after "--key") /\
  Flags.ParseArguments (prog :: tokens ++ ["--value"])
  = Throw (Flags.expected_after "--value").
Proof.
  intros [args Hloop]%ParseArguments_complete.
  by rewrite !ParseArguments_cons, !ParseArguments_loop_app, Hloop.
Qed.

Lemma ParseArguments_flag_at_end_witness :
  Flags.ParseArguments ["app"; "read"; "--key"] = Throw (Flags.expected_after "--key") /\
  Flags.ParseArguments ["app"; "--value"] = Throw (Flags.expected_after "--value").
Proof.
  split.
  - apply (ParseArguments_flag_at_end "app" ["read"]). left. by eexists.
  - apply (ParseArguments_flag_at_end "app" []). by right.
Defined.

(** X11. The word after a flag is its payload, whatever the word is, and
    the last payload given is the one kept: when an argument list is
    accepted, the same list followed by [--key k] is accepted with the key
    set to [k], and followed by [--value v] with the value set to [v], the
    operations and the other override being as they were. *)
Theorem ParseArguments_last_flag (prog : string) (tokens : list string)
    (args : Flags.ParsedArguments) (payload : string) :
  Flags.ParseArguments (prog :: tokens) = Return args ->
  Flags.ParseArguments (prog :: tokens ++ ["--key"; payload]) =
    Return {| Flags.operations := Flags.operations args;
              Flags.key := payload; Flags.key_valid := true;
              Flags.value := Flags.value args;
              Flags.value_valid := Flags.value_valid args |} /\
  Flags.ParseArguments (prog :: tokens ++ ["--value"; payload]) =
    Return {| Flags.operations := Flags.operations args;
              Flags.key := Flags.key args;
              Flags.key_valid := Flags.key_valid args;
              Flags.value := payload; Flags.value_valid := true |}.
Proof.
  intros Hparse.
  destruct (ParseArguments_complete prog tokens) as [args' Hloop]; [by left; eexists|].
  revert Hparse. rewrite !ParseArguments_cons, !ParseArguments_loop_app, Hloop.
  simpl. destruct (Nat.eqb _ 0); [done|]. by intros [= ->].
Qed.

Lemma ParseArguments_last_flag_witness :
  Flags.ParseArguments ["app"; "--key"; "A"; "write"; "--key"; "--value"] =
    Return {| Flags.operations := [kWrite];
              Flags.key := "--value"; Flags.key_valid := true;
              Flags.value := EmptyString; Flags.value_valid := false |}.
Proof.
  by apply (proj1 (ParseArguments_last_flag "app" ["--key"; "A"; "write"]
                     {| Flags.operations := [kWrite];
                        Flags.key := "A"; Flags.key_valid := true;
                        Flags.value := EmptyString; Flags.value_valid := false |}
                     "--value" eq_refl)).
Defined.

(** The loop of [ParseArguments] builds, flags and payloads apart, the
    vector the loop of [ParseOperations] builds; with a flag waiting, the
    next word is the payload and is skipped. *)
Lemma ParseArguments_loop_strip tokens :
  forall a a' nk' nv',
    (Flags.ParseArguments_loop tokens a false false = Return (a', nk', nv') ->
     ParseOperations_loop (strip_flags tokens) (Flags.operations a)
     = Return (Flags.operations a')) /\
    (Flags.ParseArguments_loop tokens a true false = Return (a', nk', nv') ->
     ParseOperations_loop (strip_flags (tail tokens)) (Flags.operations a)
     = Return (Flags.operations a')) /\
    (Flags.ParseArguments_loop tokens a false true = Return (a', nk', nv') ->
     ParseOperations_loop (strip_flags (tail tokens)) (Flags.operations a)
     = Return (Flags.operations a')).
Proof.
  induction tokens as [|t rest IH]; intros a a' nk' nv'.
  { simpl. repeat split; by intros [= <- _ _]. }
  split; [|split].
  - simpl Flags.ParseArguments_loop.
    destruct (String.eqb_spec t "read") as [->|Hr].
    { simpl. intros H. by apply (IH _ _ _ _) in H. }
    destruct (String.eqb_spec t "write") as [->|Hw].
    { simpl. intros H. by apply (IH _ _ _ _) in H. }
    destruct (String.eqb_spec t "--key") as [->|Hk].
    { intros H. apply (IH _ _ _ _) in H. by destruct rest. }
    destruct (String.eqb_spec t "--value") as [->|Hv]; [|done].
    intros H. apply (IH _ _ _ _) in H. by destruct rest.
  - simpl. intros H. by apply (IH _ _ _ _) in H.
  - simpl. intros H. by apply (IH _ _ _ _) in H.
Qed.

(** X12. The two parsers agree on the operations: when [ParseArguments]
    accepts an argument list, [ParseOperations] accepts the list without
    its flags and their payloads, and returns the same vector. *)
Theorem ParseArguments_strip_flags (prog : string) (tokens : list string)
    (args : Flags.ParsedArguments) :
  Flags.ParseArguments (prog :: tokens) = Return args ->
  ParseOperations (prog :: strip_flags tokens) = Return (Flags.operations args).
Proof.
  rewrite ParseArguments_cons.
  destruct (Flags.ParseArguments_loop tokens no_args false false)
    as [e|[[args' nk] nv]] eqn:Hloop; [done|].
  destruct nk; [done|]. destruct nv; [done|].
  destruct (Nat.eqb _ 0) eqn:Hlen; [done|]. intros [= ->].
  apply ParseArguments_loop_strip in Hloop.
  unfold ParseOperations. change (drop 1 (prog :: strip_flags tokens)) with (strip_flags tokens).
  simpl in Hloop. by rewrite Hloop, Hlen.
Qed.

Lemma ParseArguments_strip_flags_witness :
  ParseOperations ("app" :: strip_flags ["--key"; "read"; "write"; "--value"; "V"; "read"])
  = Return [kWrite; kRead].
Proof.
  by apply (ParseArguments_strip_flags "app"
              ["--key"; "read"; "write"; "--value"; "V"; "read"]
              {| Flags.operations := [kWrite; kRead];
                 Flags.key := "read"; Flags.key_valid := true;
                 Flags.value := "V"; Flags.value_valid := true |}).
Defined.


(** ** The flag-configurable program *)

(** What [ParseArguments] returns holds only the two enumerators. *)
Lemma ParseArguments_tags argv args :
  Flags.ParseArguments argv = Return args ->
  Forall (fun op => op = kRead \/ op = kWrite) (Flags.operations args).
Proof.
  unfold Flags.ParseArguments.
  destruct (Flags.ParseArguments_loop (drop 1 argv) no_args false false)
    as [e|[[args' nk] nv]] eqn:Hloop; [done|].
  destruct nk; [done|]. destruct nv; [done|].
  destruct (Nat.eqb _ 0); [done|]. intros [= ->].
  apply ParseArguments_loop_strip in Hloop. simpl in Hloop.
  rewrite ParseOperations_loop_spec in Hloop.
  destruct (List.find _ _); [done|]. injection Hloop as <-.
  apply Forall_fmap, Forall_true. intros t. simpl.
  unfold Operation_of_name. destruct (String.eqb t "read"); auto.
Qed.

Section FlagsProperties.
Context {sdk : Sdk} {strings : Flags.StringValues sdk}.

Lemma Flags_DoRead_run doc r :
  let future := (DocumentReference_Get (path doc) kServer r).1 in
  let r' := (DocumentReference_Get (path doc) kServer r).2 in
  Flags.DoRead doc r =
  match status (base future) with
  | kFutureStatusPending =>
      {| value := None;
         printed := [Logged [PText Flags.separator];
                     Logged [PText "DoRead() doc="; PText (path doc)];
                     Issued (ReqGet (path doc) kServer);
                     Logged [PText "DocumentReference.Get()"; PText " start"]];
         remote := r' |}
  | _ =>
      {| value := Some tt;
         printed := [Logged [PText Flags.separator];
                     Logged [PText "DoRead() doc="; PText (path doc)];
                     Issued (ReqGet (path doc) kServer);
                     Logged [PText "DocumentReference.Get()"; PText " start"];
                     Awaited;
                     Logged (completion_line "DocumentReference.Get()" (base future))]
                    ++ (Logged <$>
                          ([PText "Document num key/value pairs: ";
                            PSize (length (GetData future))]
                           :: imap entry_line (GetData future)));
         remote := r' |}
  end.
Proof.
  intros future r'. unfold Flags.DoRead, bind, Log, emit, call.
  cbn -[AwaitCompletion DoRead_entries Flags.separator].
  rewrite !AwaitCompletion_run, !DoRead_entries_run. fold future r'.
  destruct (status (base future)); cbn -[Flags.separator]; try done.
  all: do 8 f_equal.
  all: rewrite fmap_imap; apply imap_ext; intros k e _; simpl; done.
Qed.

Lemma Flags_DoWrite_run doc key value r :
  let map : gmap string FieldValue := {[key := Flags.FieldValue_String value]} in
  let future := (DocumentReference_Set (path doc) map r).1 in
  let r' := (DocumentReference_Set (path doc) map r).2 in
  Flags.DoWrite doc key value r =
  match status future with
  | kFutureStatusPending =>
      {| value := None;
         printed := [Logged [PText Flags.separator];
                     Logged [PText "DoWrite() doc="; PText (path doc);
                             PText " setting "; PText key; PText "="; PText value];
                     Issued (ReqSet (path doc) map);
                     Logged [PText "DocumentReference.Set()"; PText " start"]];
         remote := r' |}
  | _ =>
      {| value := Some tt;
         printed := [Logged [PText Flags.separator];
                     Logged [PText "DoWrite() doc="; PText (path doc);
                             PText " setting "; PText key; PText "="; PText value];
                     Issued (ReqSet (path doc) map);
                     Logged [PText "DocumentReference.Set()"; PText " start"];
                     Awaited;
                     Logged (completion_line "DocumentReference.Set()" future)];
         remote := r' |}
  end.
Proof.
  intros map future r'. unfold Flags.DoWrite, bind, Log, emit, call.
  cbn -[AwaitCompletion insert Flags.separator]. rewrite insert_empty.
  rewrite !AwaitCompletion_run. fold map future r'.
  destruct (status future); reflexivity.
Qed.

Lemma Flags_DoRead_one_operation doc r :
  one_operation (ReqGet (path doc) kServer) (Flags.DoRead doc r).
Proof.
  rewrite Flags_DoRead_run. unfold one_operation.
  destruct (status _) eqn:Hs; cbn [value printed remote].
  2: { split; [done|]. split; [by repeat constructor|]. right. done. }
  all: rewrite issued_app, lines_app, awaited_app.
  all: rewrite issued_Logged, lines_Logged, awaited_Logged.
  all: split; [done|]; split.
  1,3: apply Forall_app; split;
    [|constructor; [done|];
      by apply (Forall_cons_1 _ _ _ (record_lines_not_internal _))].
  1,2: simpl; repeat (constructor; [first [done | apply completion_line_not_internal]|]).
  1,2: constructor.
  all: left; split; [done|]; split; [done|]; intros t.
  all: rewrite <- app_assoc; simpl; apply one_at_a_time_Logged.
Qed.

Lemma Flags_DoWrite_one_operation doc key value r :
  one_operation (ReqSet (path doc) {[key := Flags.FieldValue_String value]})
    (Flags.DoWrite doc key value r).
Proof.
  rewrite Flags_DoWrite_run. unfold one_operation.
  destruct (status _) eqn:Hs; simpl.
  - split; [done|]. split.
    + repeat (constructor; [first [done | apply completion_line_not_internal]|]).
      constructor.
    + left. done.
  - split; [done|]. split; [by repeat constructor|]. right. done.
  - split; [done|]. split.
    + repeat (constructor; [first [done | apply completion_line_not_internal]|]).
      constructor.
    + left. done.
Qed.

Lemma Flags_main_loop_run args doc operations r :
  Forall (fun op => op = kRead \/ op = kWrite) operations ->
  let x := Flags.main_loop args doc operations r in
  exists n, (n <= length operations)%nat /\
    issued (printed x) = Flags_request_of args doc <$> take n operations /\
    Forall (fun l => is_internal_error l = false) (lines (printed x)) /\
    ((value x = Some None /\ n = length operations /\
      awaited (printed x) = n /\
      one_at_a_time false (printed x) = Some false)
     \/
     (value x = None /\ (0 < n)%nat /\
      awaited (printed x) = Nat.pred n /\
      one_at_a_time false (printed x) = Some true)).
Proof.
  intros Htags. revert r.
  induction Htags as [|operation operations Hop _ IH]; intros r; simpl.
  { exists 0%nat. split; [done|]. split; [done|]. split; [constructor|].
    left. done. }
  assert (Hstep : exists step : Prog unit,
             one_operation (Flags_request_of args doc operation) (step r) /\
             Flags.main_loop args doc (operation :: operations) r =
             bind step (fun _ => Flags.main_loop args doc operations) r).
  { destruct Hop as [-> | ->].
    - exists (Flags.DoRead doc). split; [apply Flags_DoRead_one_operation|done].
    - exists (Flags.DoWrite doc (Flags.write_key args) (Flags.write_value args)).
      split; [apply Flags_DoWrite_one_operation|done]. }
  destruct Hstep as (step & (Hq & Hl & Hrun) & Heq).
  simpl in Heq. rewrite Heq. clear Heq.
  destruct Hrun as [(Hv & Ha & Hone) | (Hv & Ha & Hone)].
  - rewrite (bind_Some _ _ _ _ Hv). cbn [value printed remote].
    destruct (IH (remote (step r))) as (n & Hn & Hi & Hli & Hcase).
    exists (S n). split; [lia|].
    rewrite issued_app, lines_app, awaited_app, Hq, Hi, Ha, Hone.
    split; [done|]. split; [by apply Forall_app|].
    destruct Hcase as [(Hv' & -> & Ha' & Hone') | (Hv' & Hpos & Ha' & Hone')].
    + left. rewrite Ha'. done.
    + right. rewrite Ha'. repeat split; try done; lia.
  - rewrite (bind_None _ _ _ Hv). cbn [value printed remote].
    exists 1%nat. split; [lia|]. rewrite Hq, Ha, Hone.
    split; [done|]. split; [done|]. right. repeat split; try done; lia.
Qed.

Lemma Flags_main_loop_settles args doc operations r :
  always_settles ->
  Forall (fun op => op = kRead \/ op = kWrite) operations ->
  value (Flags.main_loop args doc operations r) = Some None.
Proof.
  intros [Hget Hset] Htags. revert r.
  induction Htags as [|operation operations Hop _ IH]; intros r; [done|].
  destruct Hop as [-> | ->]; simpl.
  - assert (Hv : value (Flags.DoRead doc r) = Some tt).
    { rewrite Flags_DoRead_run. specialize (Hget (path doc) kServer r).
      by destruct (status _). }
    rewrite (bind_Some _ _ _ _ Hv). apply IH.
  - set (key := if Flags.key_valid args then _ else _).
    set (val := if Flags.value_valid args then _ else _).
    assert (Hv : value (Flags.DoWrite doc key val r) = Some tt).
    { rewrite Flags_DoWrite_run.
      specialize (Hset (path doc) {[key := Flags.FieldValue_String val]} r).
      by destruct (status _). }
    rewrite (bind_Some _ _ _ _ Hv). apply IH.
Qed.

Lemma Flags_main_run argv r :
  Flags.main argv r =
  match Flags.ParseArguments argv with
  | Throw e =>
      {| value := Some 2;
         printed := [Logged [PText "ERROR: Invalid command-line arguments: "; PText (what e)]];
         remote := r |}
  | Return args =>
      let r1 := (App_Create r).2 in
      if (App_Create r).1 then
        let r2 := (Firestore_GetInstance r1).2 in
        if (Firestore_GetInstance r1).1 then
          let x := Flags.main_loop args (Document "UnityIssue1154TestApp/TestDoc")
                     (Flags.operations args) r2 in
          {| value := match value x with
                      | Some (Some code) => Some code
                      | Some None => Some 0
                      | None => None
                      end;
             printed := [Logged [PText "Creating firebase::App"];
                         Logged [PText "Creating firebase::firestore::Firestore"];
                         Logged (performing_line (Flags.operations args))] ++ printed x;
             remote := remote x |}
        else
          {| value := Some 1;
             printed := [Logged [PText "Creating firebase::App"];
                         Logged [PText "Creating firebase::firestore::Firestore"];
                         Logged [PText "ERROR: Creating firebase::firestore::Firestore FAILED!"]];
             remote := r2 |}
      else
        {| value := Some 1;
           printed := [Logged [PText "Creating firebase::App"];
                       Logged [PText "ERROR: Creating firebase::App FAILED!"]];
           remote := r1 |}
  end.
Proof.
  unfold Flags.main. destruct (Flags.ParseArguments argv) as [e|args]; [done|].
  unfold bind, Log, emit, call. cbn -[Flags.main_loop].
  destruct (App_Create r) as [[] r1]; cbn -[Flags.main_loop]; [|done].
  destruct (Firestore_GetInstance r1) as [[] r2]; cbn -[Flags.main_loop]; [|done].
  destruct (Flags.main_loop _ _ _ r2) as [[[code|]|] t r3]; simpl.
  all: by rewrite ?app_nil_r.
Qed.


(** X13. On a non-empty argument list made of [read] and [write] only,
    [ParseArguments] accepts, returns the vector [ParseOperations] returns
    and sets neither override; and every write of the run of the
    flag-configurable program on that list is on the document
    [UnityIssue1154TestApp/TestDoc] and carries the single field [TestKey]
    with the string [TestValue]. *)
Theorem ParseArguments_no_flags (prog : string) (tokens : list string) (r : Remote) :
  tokens <> [] ->
  Forall (fun t => t = "read" \/ t = "write") tokens ->
  exists args,
    Flags.ParseArguments (prog :: tokens) = Return args /\
    ParseOperations (prog :: tokens) = Return (Flags.operations args) /\
    Flags.key_valid args = false /\ Flags.value_valid args = false /\
    forall path map,
      ReqSet path map ∈ issued (printed (Flags.main (prog :: tokens) r)) ->
      path = "UnityIssue1154TestApp/TestDoc" /\
      map = {["TestKey" := Flags.FieldValue_String "TestValue"]}.
Proof.
  intros Hne Hall.
  destruct (ParseArguments_plain prog tokens Hne Hall) as [Hparse Hops].
  eexists. split; [exact Hparse|]. split; [exact Hops|].
  split; [done|]. split; [done|].
  intros path map. rewrite Flags_main_run, Hparse. cbv zeta.
  destruct (App_Create r).1; [|by intros H%elem_of_nil].
  destruct (Firestore_GetInstance _).1; [|by intros H%elem_of_nil].
  cbn [printed]. rewrite issued_app. simpl.
  pose proof (ParseArguments_tags _ _ Hparse) as Htags.
  match goal with
  | |- context [Flags.main_loop ?a ?d ?o ?s] =>
      destruct (Flags_main_loop_run a d o s Htags) as (n & _ & -> & _)
  end.
  intros (op & Hq & Hop%subseteq_take)%list_elem_of_fmap.
  rewrite Forall_forall in Htags.
  destruct (Htags op Hop) as [-> | ->]; [done|].
  by injection Hq as -> ->.
Qed.

(** X15. The flag-configurable program exits as [main.cc] does: with
    status 2, one line printed and the collaborator untouched, when
    [ParseArguments] throws (so also for a flag without its payload); with
    status 1 and no request issued when [App::Create] or
    [Firestore::GetInstance] fails; and, past the setup and with handles
    that settle, with status 0 after issuing the requests of the
    operations in order, each one waited for, whatever their error
    codes. *)
Theorem Flags_main_exit_status (argv : list string) (r : Remote) :
  (forall e, Flags.ParseArguments argv = Throw e ->
     value (Flags.main argv r) = Some 2 /\
     printed (Flags.main argv r) =
       [Logged [PText "ERROR: Invalid command-line arguments: "; PText (what e)]] /\
     remote (Flags.main argv r) = r) /\
  (forall args, Flags.ParseArguments argv = Return args ->
     (App_Create r).1 = false \/
     (Firestore_GetInstance (App_Create r).2).1 = false ->
     value (Flags.main argv r) = Some 1 /\
     issued (printed (Flags.main argv r)) = []) /\
  (forall args, Flags.ParseArguments argv = Return args ->
     (App_Create r).1 = true ->
     (Firestore_GetInstance (App_Create r).2).1 = true ->
     always_settles ->
     value (Flags.main argv r) = Some 0 /\
     Request_operation <$> issued (printed (Flags.main argv r)) = Flags.operations args /\
     awaited (printed (Flags.main argv r)) = length (Flags.operations args) /\
     one_at_a_time false (printed (Flags.main argv r)) = Some false).
Proof.
  rewrite Flags_main_run. split; [|split].
  - by intros e ->.
  - intros args -> Hsetup. cbv zeta.
    destruct (App_Create r).1; [|done].
    destruct Hsetup as [?|Hfs]; [done|]. by rewrite Hfs.
  - intros args Hparse Happ Hfs Hsettles. rewrite Hparse. cbv zeta.
    rewrite Happ, Hfs. cbn [value printed remote].
    pose proof (ParseArguments_tags _ _ Hparse) as Htags.
    rewrite (Flags_main_loop_settles _ _ _ _ Hsettles Htags).
    destruct (Flags_main_loop_run args (Document "UnityIssue1154TestApp/TestDoc")
                (Flags.operations args)
                (Firestore_GetInstance (App_Create r).2).2 Htags)
      as (n & _ & Hi & _ & Hcase).
    rewrite (Flags_main_loop_settles _ _ _ _ Hsettles Htags) in Hcase.
    destruct Hcase as [(_ & -> & Ha & Hone) | (Hv & _)]; [|done].
    rewrite issued_app, awaited_app. simpl.
    split; [done|]. split; [|split; [done|exact Hone]].
    rewrite Hi, take_ge by done. clear -Htags.
    induction Htags as [|op ops Hop _ IH]; csimpl; [done|].
    rewrite IH. by destruct Hop as [-> | ->].
Qed.

End FlagsProperties.

Lemma Store_always_settles : always_settles (sdk := Store.sdk).
Proof. split; intros; done. Qed.

(** A write and then a read, with both flags after the write: the read
    finds the pair of the flags. *)
Example Flags_write_then_read :
  lines (printed (Flags.main (sdk := Store.sdk) (strings := Store.strings)
                    ["app"; "write"; "--key"; "A"; "read"; "--value"; "1"]
                    Store.empty)) =
  [[PText "Creating firebase::App"];
   [PText "Creating firebase::firestore::Firestore"];
   [PText "Performing "; PSize 2; PText " operations on document: ";
    PText "UnityIssue1154TestApp/TestDoc"];
   [PText Flags.separator];
   [PText "DoWrite() doc="; PText "UnityIssue1154TestApp/TestDoc";
    PText " setting "; PText "A"; PText "="; PText "1"];
   [PText "DocumentReference.Set()"; PText " start"];
   [PText "DocumentReference.Set()"; PText " done"];
   [PText Flags.separator];
   [PText "DoRead() doc="; PText "UnityIssue1154TestApp/TestDoc"];
   [PText "DocumentReference.Get()"; PText " start"];
   [PText "DocumentReference.Get()"; PText " done"];
   [PText "Document num key/value pairs: "; PSize 1];
   [PText "Entry #"; PInt 1; PText ": "; PText "A"; PText "=";
    PField (Flags.FieldValue_String (StringValues := Store.strings) "1")]].
Proof. vm_compute. reflexivity. Qed.


Lemma ParseArguments_no_flags_witness :
  exists args,
    Flags.ParseArguments ["app"; "write"; "read"] = Return args /\
    ParseOperations ["app"; "write"; "read"] = Return (Flags.operations args) /\
    Flags.key_valid args = false /\ Flags.value_valid args = false /\
    issued (printed (Flags.main (sdk := Store.sdk) (strings := Store.strings)
                       ["app"; "write"; "read"] Store.empty)) =
    [ReqSet "UnityIssue1154TestApp/TestDoc" {["TestKey" := Store.VString "TestValue"]};
     ReqGet "UnityIssue1154TestApp/TestDoc" kServer].
Proof.
  destruct (ParseArguments_no_flags (sdk := Store.sdk) (strings := Store.strings)
              "app" ["write"; "read"] Store.empty)
    as (args & Hparse & Hops & Hk & Hv & _); [done | |].
  { repeat (apply Forall_cons_2; [auto|]). apply Forall_nil_2. }
  exists args. split; [exact Hparse|]. split; [exact Hops|].
  split; [exact Hk|]. split; [exact Hv|]. vm_compute. reflexivity.
Defined.

Lemma Flags_main_exit_status_witness :
  value (Flags.main (sdk := Store.sdk) (strings := Store.strings)
           ["app"; "read"; "--key"] Store.empty) = Some 2 /\
  value (Flags.main (sdk := Store.sdk) (strings := Store.strings)
           ["app"; "read"] Store.unconfigured) = Some 1 /\
  value (Flags.main (sdk := Store.sdk) (strings := Store.strings)
           ["app"; "--value"; "V"; "write"; "read"] Store.empty) = Some 0.
Proof.
  split; [|split].
  - destruct (Flags_main_exit_status (sdk := Store.sdk) (strings := Store.strings)
                ["app"; "read"; "--key"] Store.empty) as (H & _).
    by destruct (H (Flags.expected_after "--key")) as [Hv _].
  - destruct (Flags_main_exit_status (sdk := Store.sdk) (strings := Store.strings)
                ["app"; "read"] Store.unconfigured) as (_ & H & _).
    destruct (H {| Flags.operations := [kRead]; Flags.key := EmptyString;
                   Flags.key_valid := false; Flags.value := EmptyString;
                   Flags.value_valid := false |}) as [Hv _]; [done|by left|done].
  - destruct (Flags_main_exit_status (sdk := Store.sdk) (strings := Store.strings)
                ["app"; "--value"; "V"; "write"; "read"] Store.empty) as (_ & _ & H).
    destruct (H {| Flags.operations := [kWrite; kRead]; Flags.key := EmptyString;
                   Flags.key_valid := false; Flags.value := "V";
                   Flags.value_valid := true |}) as [Hv _];
      [done | done | done | apply Store_always_settles | done].
Defined.

(** ** [ParseArguments], one list after another *)

(** The loop started from more: what it had to start with stays, under
    what it adds. *)
Lemma ParseArguments_loop_frame tokens :
  forall a a0 r0 nk nv nk' nv',
    Flags.ParseArguments_loop tokens a0 nk nv = Return (r0, nk', nv') ->
    Flags.ParseArguments_loop tokens (Flags_combine a a0) nk nv
    = Return (Flags_combine a r0, nk', nv').
Proof.
  induction tokens as [|t rest IH]; intros a a0 r0 nk nv nk' nv'; simpl.
  { by intros [= -> -> ->]. }
  destruct nk.
  { intros H. apply (IH a) in H. revert H. unfold Flags_combine. simpl. done. }
  destruct nv.
  { intros H. apply (IH a) in H. revert H. unfold Flags_combine. simpl. done. }
  destruct (String.eqb t "read").
  { intros H. apply (IH a) in H. revert H. unfold Flags_combine. simpl.
    by rewrite app_assoc. }
  destruct (String.eqb t "write").
  { intros H. apply (IH a) in H. revert H. unfold Flags_combine. simpl.
    by rewrite app_assoc. }
  destruct (String.eqb t "--key"); [apply IH|].
  destruct (String.eqb t "--value"); [apply IH|].
  done.
Qed.

Lemma Flags_combine_no_args x : Flags_combine x no_args = x.
Proof. destruct x. unfold Flags_combine. simpl. by rewrite app_nil_r. Qed.

(** X16. When two argument lists are both accepted, so is the one followed
    by the other: the operations are those of the first followed by those
    of the second, and each override is the second's when the second sets
    it and the first's otherwise. *)
Theorem ParseArguments_app (prog : string) (a b : list string)
    (x y : Flags.ParsedArguments) :
  Flags.ParseArguments (prog :: a) = Return x ->
  Flags.ParseArguments (prog :: b) = Return y ->
  Flags.ParseArguments (prog :: a ++ b) = Return (Flags_combine x y).
Proof.
  rewrite !ParseArguments_cons, ParseArguments_loop_app.
  destruct (Flags.ParseArguments_loop a no_args false false)
    as [e|[[x' nk] nv]]; [done|].
  destruct nk; [done|]. destruct nv; [done|].
  destruct (Nat.eqb (length (Flags.operations x')) 0) eqn:Hx; [done|]. intros [= ->].
  destruct (Flags.ParseArguments_loop b no_args false false)
    as [e|[[y' nk] nv]] eqn:Hb; [done|].
  destruct nk; [done|]. destruct nv; [done|].
  destruct (Nat.eqb (length (Flags.operations y')) 0); [done|]. intros [= ->].
  apply (ParseArguments_loop_frame b x) in Hb.
  rewrite Flags_combine_no_args in Hb. rewrite Hb. simpl.
  rewrite length_app. destruct (Flags.operations x); [done|]. done.
Qed.

Lemma ParseArguments_app_witness :
  Flags.ParseArguments
    ["app"; "--key"; "A"; "--value"; "1"; "write"; "read"; "--key"; "B"] =
  Return {| Flags.operations := [kWrite; kRead];
            Flags.key := "B"; Flags.key_valid := true;
            Flags.value := "1"; Flags.value_valid := true |}.
Proof.
  by apply (ParseArguments_app "app" ["--key"; "A"; "--value"; "1"; "write"]
              ["read"; "--key"; "B"]
              {| Flags.operations := [kWrite];
                 Flags.key := "A"; Flags.key_valid := true;
                 Flags.value := "1"; Flags.value_valid := true |}
              {| Flags.operations := [kRead];
                 Flags.key := "B"; Flags.key_valid := true;
                 Flags.value := EmptyString; Flags.value_valid := false |}).
Defined.

(** X17. A word that is no operation and no flag, where a payload is not
    expected, is rejected by name: when an argument list is accepted, or is
    rejected only for holding no operation, the same list followed by such
    a word is rejected with the [invalid argument] exception for that
    word, whatever comes after it. *)
Theorem ParseArguments_invalid_word (prog : string) (tokens rest : list string)
    (bad : string) :
  (exists args, Flags.ParseArguments (prog :: tokens) = Return args) \/
  Flags.ParseArguments (prog :: tokens) = Throw no_arguments ->
  bad <> "read" -> bad <> "write" -> bad <> "--key" -> bad <> "--value" ->
  Flags.ParseArguments (prog :: tokens ++ bad :: rest) = Throw (invalid_argument bad).
Proof.
  intros [args Hloop]%ParseArguments_complete Hr Hw Hk Hv.
  rewrite ParseArguments_cons, ParseArguments_loop_app, Hloop. simpl.
  apply String.eqb_neq in Hr, Hw, Hk, Hv. by rewrite Hr, Hw, Hk, Hv.
Qed.

Lemma ParseArguments_invalid_word_witness :
  Flags.ParseArguments ["app"; "--key"; "K"; "write"; "--help"; "read"]
  = Throw (invalid_argument "--help").
Proof.
  apply (ParseArguments_invalid_word "app" ["--key"; "K"; "write"] ["read"] "--help");
    [left; by eexists | done | done | done | done].
Defined.
